(** * svelte-interval: Interval, LimitedInterval and sync

    A shallow embedding of the library's source, [index.svelte.ts], in the
    revision that has [stop], [LimitedInterval] and [sync].

    JavaScript objects live in a store and are named by references, since
    [sync] shares the member objects with its caller and swaps their tick
    handlers in place.  Numbers are integers ([Z]); the host's periodic
    timers ([setInterval] / [clearInterval]) are a table of live timers,
    each holding the callback it was created with.  The two derived values
    of an [Interval] are evaluated on reads, as Svelte does it: [#duration]
    keeps the value of its last evaluation, and [#interval] is evaluated
    again once [#version] was written or that kept value has changed. *)

From Stdlib Require Import String.
From stdpp Require Import base option list numbers.

Local Open Scope Z_scope.
Set Warnings "-register-all".

(** ** Data *)

(** Identity of an [Interval] object. *)
Abbreviation ref := nat (only parsing).

(** The reactive state of the host that a duration producer may read. *)
Definition host := Z.

(** [number | (() => number)] *)
Inductive duration_spec : Type :=
| Fixed (d : Z)
| Producer (f : host -> Z).

(** The function values that are ever stored in [#run_func].  All of them
    are arrow functions, so each acts on the instance of its defining
    scope, whatever receiver [call] or [bind] supplies. *)
Inductive handler : Type :=
| BaseRun (self : ref)
    (* the class field [#run_func = () => {...}] of [Interval] *)
| LimitedRun (self : ref)
    (* the arrow installed by the [LimitedInterval] constructor *)
| LeaderRun (leader : ref) (intervals : list ref)
            (original_run_funcs : list (ref * handler))
    (* the arrow [enable] installs on the leader; it closes over
       [leader], [intervals] and the map [original_run_funcs] *)
| FollowerRun.
    (* [() => {}] *)

(** The private fields a [LimitedInterval] adds. *)
Record LimitedInterval : Type := mkLimited {
  max_ticks : Z;
  is_completed : bool;
  completion_baseline : Z
}.

Record Interval : Type := mkInterval {
  duration_input : duration_spec;
  is_active : bool;
  tick_count : Z;
  version : Z;
  interval_id : Z;
  run_func : handler;
  update : bool;                  (* is [#update] defined *)
  notified : nat;                 (* calls of [#update] so far *)
  interval_memo : option (Z * Z); (* [#version] and [#duration] the derived
                                     [#interval] was last evaluated from *)
  limited : option LimitedInterval
}.

(** A live timer of the host. *)
Record timer : Type := mkTimer {
  tid : Z;
  callback : handler;
  delay : Z
}.

(** The object [sync] returns, with the variables its methods close over. *)
Record controller : Type := mkController {
  c_intervals : list ref;
  c_leader : ref;
  c_original_run_funcs : list (ref * handler);
  sync_active : bool
}.

(** The signal of a derived [#duration]: the value it holds from its last
    evaluation, and whether that value has changed since the derived
    [#interval] of the same object was last evaluated.  Svelte keeps both
    in the signal, not in the instance, and any holder of the object
    refreshes them by reading [duration]. *)
Definition duration_signal : Type := Z * bool.

Record world : Type := mkWorld {
  objs : list Interval;
  timers : list timer;
  next_id : Z;
  host_state : host;
  ctrls : list controller;
  durations : list (ref * duration_signal)
    (* the derived [#duration] of each object that was evaluated so far *)
}.

(** Nothing allocated yet; the host hands out timer ids from 1. *)
Definition init_world : world := mkWorld [] [] 1 0 [] [].

(** What a call that may throw leaves behind. *)
Inductive error : Type :=
| MaxTicksError
| SyncEmptyError.

Definition message (e : error) : string :=
  match e with
  | MaxTicksError => "max_ticks must be greater than 0"%string
  | SyncEmptyError => "At least one interval is required for sync"%string
  end.

Inductive outcome (A : Type) : Type :=
| Returned (a : A) (w : world)
| Thrown (e : error) (w : world).
Arguments Returned {A} a w.
Arguments Thrown {A} e w.

Definition world_of {A} (r : outcome A) : world :=
  match r with Returned _ w => w | Thrown _ w => w end.

(** ** Field updates *)

Definition with_duration_input v (i : Interval) : Interval :=
  mkInterval v (is_active i) (tick_count i) (version i) (interval_id i)
             (run_func i) (update i) (notified i) (interval_memo i) (limited i).
Definition with_is_active v (i : Interval) : Interval :=
  mkInterval (duration_input i) v (tick_count i) (version i) (interval_id i)
             (run_func i) (update i) (notified i) (interval_memo i) (limited i).
Definition with_tick_count v (i : Interval) : Interval :=
  mkInterval (duration_input i) (is_active i) v (version i) (interval_id i)
             (run_func i) (update i) (notified i) (interval_memo i) (limited i).
Definition with_version v (i : Interval) : Interval :=
  mkInterval (duration_input i) (is_active i) (tick_count i) v (interval_id i)
             (run_func i) (update i) (notified i) (interval_memo i) (limited i).
Definition with_interval_id v (i : Interval) : Interval :=
  mkInterval (duration_input i) (is_active i) (tick_count i) (version i) v
             (run_func i) (update i) (notified i) (interval_memo i) (limited i).
Definition with_run_func v (i : Interval) : Interval :=
  mkInterval (duration_input i) (is_active i) (tick_count i) (version i)
             (interval_id i) v (update i) (notified i) (interval_memo i) (limited i).
Definition with_update v (i : Interval) : Interval :=
  mkInterval (duration_input i) (is_active i) (tick_count i) (version i)
             (interval_id i) (run_func i) v (notified i) (interval_memo i) (limited i).
Definition with_notified v (i : Interval) : Interval :=
  mkInterval (duration_input i) (is_active i) (tick_count i) (version i)
             (interval_id i) (run_func i) (update i) v (interval_memo i) (limited i).
Definition with_interval_memo v (i : Interval) : Interval :=
  mkInterval (duration_input i) (is_active i) (tick_count i) (version i)
             (interval_id i) (run_func i) (update i) (notified i) v (limited i).
Definition with_limited v (i : Interval) : Interval :=
  mkInterval (duration_input i) (is_active i) (tick_count i) (version i)
             (interval_id i) (run_func i) (update i) (notified i) (interval_memo i) v.

Definition with_max_ticks v (l : LimitedInterval) : LimitedInterval :=
  mkLimited v (is_completed l) (completion_baseline l).
Definition with_is_completed v (l : LimitedInterval) : LimitedInterval :=
  mkLimited (max_ticks l) v (completion_baseline l).
Definition with_completion_baseline v (l : LimitedInterval) : LimitedInterval :=
  mkLimited (max_ticks l) (is_completed l) v.

Definition with_objs v (w : world) : world :=
  mkWorld v (timers w) (next_id w) (host_state w) (ctrls w) (durations w).
Definition with_timers v (w : world) : world :=
  mkWorld (objs w) v (next_id w) (host_state w) (ctrls w) (durations w).
Definition with_next_id v (w : world) : world :=
  mkWorld (objs w) (timers w) v (host_state w) (ctrls w) (durations w).
Definition with_host_state v (w : world) : world :=
  mkWorld (objs w) (timers w) (next_id w) v (ctrls w) (durations w).
Definition with_ctrls v (w : world) : world :=
  mkWorld (objs w) (timers w) (next_id w) (host_state w) v (durations w).
Definition with_durations v (w : world) : world :=
  mkWorld (objs w) (timers w) (next_id w) (host_state w) (ctrls w) v.

(** ** Maps keyed by object *)

(** [Map.prototype.set]: an existing key keeps its place. *)
Fixpoint map_set {V} (k : ref) (v : V) (m : list (ref * V)) : list (ref * V) :=
  match m with
  | [] => [(k, v)]
  | (k', v') :: m' =>
      if decide (k' = k) then (k, v) :: m' else (k', v') :: map_set k v m'
  end.

(** [Map.prototype.get] *)
Fixpoint map_get {V} (k : ref) (m : list (ref * V)) : option V :=
  match m with
  | [] => None
  | (k', v) :: m' => if decide (k' = k) then Some v else map_get k m'
  end.

(** ** Store access *)

(** Read a private field of object [o]; [d] stands in for a reference that
    names no object, which no JavaScript program can hold. *)
Definition field {A} (g : Interval -> A) (d : A) (o : ref) (w : world) : A :=
  from_option g d (objs w !! o).

Definition lfield {A} (g : LimitedInterval -> A) (d : A) (o : ref) (w : world) : A :=
  field (fun i => from_option g d (limited i)) d o w.

(** Write private fields of object [o] in place. *)
Definition upd (o : ref) (f : Interval -> Interval) (w : world) : world :=
  with_objs (alter f o (objs w)) w.

Definition lupd (o : ref) (f : LimitedInterval -> LimitedInterval) (w : world) : world :=
  upd o (fun i => with_limited (f <$> limited i) i) w.

(** ** The host's timers *)

Definition clearInterval (id : Z) (w : world) : world :=
  with_timers (List.filter (fun t => negb (tid t =? id)) (timers w)) w.

Definition setInterval (h : handler) (d : Z) (w : world) : Z * world :=
  (next_id w,
   with_next_id (next_id w + 1)
     (with_timers (timers w ++ [mkTimer (next_id w) h d]) w)).

(** ** Interval *)

Definition resolve (h : host) (s : duration_spec) : Z :=
  match s with
  | Fixed d => d
  | Producer f => f h
  end.

(** The value of the derived [#duration], which [get duration()] returns. *)
Definition duration (o : ref) (w : world) : Z :=
  resolve (host_state w) (field duration_input (Fixed 0) o w).

(** What a read of the derived [#duration] does to it: the value is
    brought up to date, and when it is not the value held so far the
    derived counts as changed for [#interval], which depends on it. *)
Definition read_duration (o : ref) (w : world) : world :=
  match objs w !! o with
  | None => w
  | Some _ =>
      let d := duration o w in
      if decide (fst <$> map_get o (durations w) = Some d) then w
      else with_durations (map_set o (d, true) (durations w)) w
  end.

(** Reading the derived [#interval]: it first brings [#duration] up to
    date; it is evaluated on the first read, and again on a read after
    [#version] was written or the value held by [#duration] changed, also
    when that value has come back to what it was.  Evaluating it clears the
    old handle and creates a timer bound to the value [#run_func] has at
    that moment.  (The comparison of the duration with the one of the last
    evaluation is implied by the flag in every state a program reaches.) *)
Definition interval_derived (o : ref) (w : world) : world :=
  match objs w !! o with
  | None => w
  | Some i =>
      let w := read_duration o w in
      let d := duration o w in
      if decide (interval_memo i = Some (version i, d) /\
                 map_get o (durations w) = Some (d, false)) then w
      else
        let w := clearInterval (interval_id i) w in
        let '(id, w) := setInterval (run_func i) d w in
        let w := with_durations (map_set o (d, false) (durations w)) w in
        upd o (fun i => with_interval_memo (Some (version i, d))
                          (with_interval_id id i)) w
  end.

(** [this.#subscribe()]: inside a tracking effect the subscriber starts and
    stores [update]; outside of one it does nothing. *)
Definition subscribe (tracked : bool) (o : ref) (w : world) : world :=
  if tracked then upd o (with_update true) w else w.

Definition kickoff_subscriptions (tracked : bool) (o : ref) (w : world) : world :=
  subscribe tracked o (interval_derived o w).

(** [this.#update?.()] *)
Definition trigger_update (o : ref) (w : world) : world :=
  upd o (fun i => if update i then with_notified (S (notified i)) i else i) w.

Definition increment_tick (o : ref) (w : world) : world :=
  upd o (fun i => with_tick_count (tick_count i + 1) i) w.

Definition force_restart (o : ref) (w : world) : world :=
  upd o (fun i => with_version (version i + 1) i) w.

Definition isActive (o : ref) (w : world) : bool := field is_active false o w.

Definition pause (o : ref) (w : world) : world := upd o (with_is_active false) w.

(** The body of the class field [#run_func]. *)
Definition base_run (o : ref) (w : world) : world :=
  if negb (isActive o w) then w
  else trigger_update o (increment_tick o w).

(** ** LimitedInterval: the tick handler *)

Definition isCompleted (o : ref) (w : world) : bool := lfield is_completed false o w.
Definition maxTicks (o : ref) (w : world) : Z := lfield max_ticks 0 o w.
Definition baseline (o : ref) (w : world) : Z := lfield completion_baseline 0 o w.

Definition limited_run (o : ref) (w : world) : world :=
  if isCompleted o w then w
  else if negb (isActive o w) then w
  else
    let w := increment_tick o w in
    let w := trigger_update o w in
    let ticksSinceBaseline := field tick_count 0 o w - baseline o w in
    if maxTicks o w <=? ticksSinceBaseline
    then pause o (lupd o (with_is_completed true) w)
    else w.

(** ** Running a tick handler *)

(** Calling a handler.  The leader closure loops over [intervals] and
    looks each member up in the map; the lookup is written out in place so
    that the recursion stays on the saved handlers. *)
Fixpoint run (h : handler) (w : world) : world :=
  match h with
  | BaseRun o => base_run o w
  | LimitedRun o => limited_run o w
  | FollowerRun => w
  | LeaderRun leader intervals original_run_funcs =>
      if negb (isActive leader w) then w
      else
        fold_left
          (fun w synced_interval =>
             (* original_run_funcs.get(synced_interval).call(synced_interval) *)
             (fix call (m : list (ref * handler)) : world :=
                match m with
                | [] => w
                | (k, original_func) :: m' =>
                    if decide (k = synced_interval) then run original_func w
                    else call m'
                end) original_run_funcs)
          intervals w
  end.

(** The host fires the live timer [id]. *)
Definition fire (id : Z) (w : world) : world :=
  match List.find (fun t => tid t =? id) (timers w) with
  | Some t => run (callback t) w
  | None => w
  end.

(** ** Interval: constructor and public members *)

(** [get current()]; the [Date] it returns is the host's clock and is left
    out. *)
Definition current (tracked : bool) (o : ref) (w : world) : world :=
  kickoff_subscriptions tracked o w.

Definition tickCount (tracked : bool) (o : ref) (w : world) : Z * world :=
  let w := kickoff_subscriptions tracked o w in
  (field tick_count 0 o w, w).

Definition new_Interval (tracked : bool) (d : duration_spec) (immediate : bool)
    (w : world) : ref * world :=
  let self := length (objs w) in
  let w := with_objs (objs w ++ [mkInterval d true 0 0 0 (BaseRun self)
                                            false 0 None None]) w in
  (self, if immediate then kickoff_subscriptions tracked self w else w).

Definition resume (immediate : bool) (o : ref) (w : world) : world :=
  let w := upd o (with_is_active true) w in
  if immediate then
    let w := force_restart o w in
    run (field run_func FollowerRun o w) w
  else w.

Definition set_duration (value : duration_spec) (o : ref) (w : world) : world :=
  force_restart o (upd o (with_duration_input value) w).

Definition stop (o : ref) (w : world) : world :=
  let w := clearInterval (field interval_id 0 o w) w in
  let w := upd o (with_is_active false) w in
  upd o (with_interval_id 0) w.

Definition isStopped (o : ref) (w : world) : bool :=
  field interval_id 0 o w =? 0.

(** [[Symbol.dispose]()] *)
Definition dispose (o : ref) (w : world) : world :=
  clearInterval (field interval_id 0 o w) w.

(** The teardown the subscriber returns, run by the host once the last
    tracking effect is gone. *)
Definition teardown (o : ref) (w : world) : world :=
  if field update false o w then clearInterval (field interval_id 0 o w) w
  else w.

(** ** LimitedInterval: constructor and public members *)

(** [super] runs first, so on the failure the base object has already been
    built (and, with [immediate], its timer created). *)
Definition new_LimitedInterval (tracked : bool) (d : duration_spec)
    (maxTicks : Z) (immediate : bool) (w : world) : outcome ref :=
  let '(self, w) := new_Interval tracked d immediate w in
  if maxTicks <=? 0 then Thrown MaxTicksError w
  else
    let w := upd self (with_limited (Some (mkLimited maxTicks false 0))) w in
    Returned self (upd self (with_run_func (LimitedRun self)) w).

Definition remainingTicks (tracked : bool) (o : ref) (w : world) : Z * world :=
  let '(tc, w) := tickCount tracked o w in
  let ticksSinceBaseline := tc - baseline o w in
  (Z.max 0 (maxTicks o w - ticksSinceBaseline), w).

Definition reset (tracked : bool) (o : ref) (w : world) : world :=
  let w := lupd o (with_is_completed false) w in
  let '(tc, w) := tickCount tracked o w in
  let w := lupd o (with_completion_baseline tc) w in
  if negb (isActive o w) then resume false o w else w.

Definition set_maxTicks (new_max : Z) (o : ref) (w : world) : outcome unit :=
  if new_max <=? 0 then Thrown MaxTicksError w
  else
    let w := lupd o (with_max_ticks new_max) w in
    Returned tt (lupd o (with_is_completed false) w).

(** ** sync *)

Definition with_sync_active v (c : controller) : controller :=
  mkController (c_intervals c) (c_leader c) (c_original_run_funcs c) v.

(** The scan for the leader, started from [intervals[0]]. *)
Definition find_leader (intervals : list ref) (first : ref) (w : world) : ref :=
  fold_left
    (fun leader interval =>
       if duration interval w <? duration leader w then interval else leader)
    intervals first.

Definition capture_run_funcs (intervals : list ref) (w : world)
    : list (ref * handler) :=
  fold_left
    (fun m interval => map_set interval (field run_func FollowerRun interval w) m)
    intervals [].

(** What the scan does to the world: each step reads [duration] of the
    member at hand and of the leader so far. *)
Definition scan_reads (intervals : list ref) (first : ref) (w : world) : world :=
  (fold_left
     (fun '(leader, w') interval =>
        let w' := read_duration interval w' in
        let w' := read_duration leader w' in
        (if duration interval w <? duration leader w then interval else leader,
         w'))
     intervals (first, w)).2.

(** [sync(...intervals)]; the result names the controller created. *)
Definition sync (intervals : list ref) (w : world) : outcome nat :=
  match intervals with
  | [] => Thrown SyncEmptyError w
  | first :: _ =>
      let leader := find_leader intervals first w in
      let original_run_funcs := capture_run_funcs intervals w in
      let w := scan_reads intervals first w in
      Returned (length (ctrls w))
        (with_ctrls
           (ctrls w ++ [mkController intervals leader original_run_funcs false])
           w)
  end.

Definition set_run_func (o : ref) (fn : handler) (w : world) : world :=
  upd o (with_run_func fn) w.

Definition enable (tracked : bool) (c : nat) (w : world) : world :=
  match ctrls w !! c with
  | None => w
  | Some k =>
      if sync_active k then w
      else
        let w := with_ctrls (alter (with_sync_active true) c (ctrls w)) w in
        let w :=
          fold_left
            (fun w interval =>
               if decide (interval = c_leader k)
               then set_run_func interval
                      (LeaderRun (c_leader k) (c_intervals k)
                                 (c_original_run_funcs k)) w
               else set_run_func interval FollowerRun w)
            (c_intervals k) w in
        let w := current tracked (c_leader k) w in
        force_restart (c_leader k) w
  end.

(** Every member has an entry in the map, so the [None] branch of the
    lookup is never taken. *)
Definition disable (c : nat) (w : world) : world :=
  match ctrls w !! c with
  | None => w
  | Some k =>
      if negb (sync_active k) then w
      else
        let w := with_ctrls (alter (with_sync_active false) c (ctrls w)) w in
        fold_left
          (fun w interval =>
             let w :=
               match map_get interval (c_original_run_funcs k) with
               | Some original_func => set_run_func interval original_func w
               | None => w
               end in
             force_restart interval w)
          (c_intervals k) w
  end.

(** [get isActive()] of the controller. *)
Definition isSynced (c : nat) (w : world) : bool :=
  from_option sync_active false (ctrls w !! c).

(** [get leader()] *)
Definition leader (c : nat) (w : world) : option ref :=
  c_leader <$> ctrls w !! c.

(** ** Sequences of operations *)

(** What a program and its host can do to the objects: the public members
    with an effect (a read of [duration] has one on the derived value), the
    firing of a live timer, and a change of the reactive state the
    producers read.  The flag of a read says whether it
    happens inside a tracking effect. *)
Inductive op : Type :=
| NewInterval (d : duration_spec) (immediate tracked : bool)
| NewLimitedInterval (d : duration_spec) (maxTicks : Z) (immediate tracked : bool)
| Current (o : ref) (tracked : bool)
| TickCount (o : ref) (tracked : bool)
| SetDuration (o : ref) (value : duration_spec)
| Pause (o : ref)
| Resume (o : ref) (immediate : bool)
| Stop (o : ref)
| Dispose (o : ref)
| Teardown (o : ref)
| RemainingTicks (o : ref) (tracked : bool)
| Reset (o : ref) (tracked : bool)
| SetMaxTicks (o : ref) (new_max : Z)
| Sync (intervals : list ref)
| Enable (c : nat) (tracked : bool)
| Disable (c : nat)
| Fire (id : Z)
| HostWrite (v : host)
| ReadDuration (o : ref).

Definition step (a : op) (w : world) : world :=
  match a with
  | NewInterval d immediate tracked => (new_Interval tracked d immediate w).2
  | NewLimitedInterval d n immediate tracked =>
      world_of (new_LimitedInterval tracked d n immediate w)
  | Current o tracked => current tracked o w
  | TickCount o tracked => (tickCount tracked o w).2
  | SetDuration o v => set_duration v o w
  | Pause o => pause o w
  | Resume o immediate => resume immediate o w
  | Stop o => stop o w
  | Dispose o => dispose o w
  | Teardown o => teardown o w
  | RemainingTicks o tracked => (remainingTicks tracked o w).2
  | Reset o tracked => reset tracked o w
  | SetMaxTicks o n => world_of (set_maxTicks n o w)
  | Sync l => world_of (sync l w)
  | Enable c tracked => enable tracked c w
  | Disable c => disable c w
  | Fire id => fire id w
  | HostWrite v => with_host_state v w
  | ReadDuration o => read_duration o w
  end.

Definition exec (l : list op) (w : world) : world :=
  fold_left (fun w a => step a w) l w.

(** ** The first revision of Interval *)

(** The class as it was before [pause], [stop] and [sync]: the derived
    [#interval] depends on [#duration] alone and does not clear the handle
    it replaces; the setter of [duration] clears the handle itself, which
    it gets by reading [#interval]. *)
Module Legacy.

Record Interval : Type := mkInterval {
  duration_input : duration_spec;
  update : bool;                 (* is [#update] defined *)
  interval_memo : option (Z * Z) (* the [#duration] that the derived
                                    [#interval] was evaluated from, and the
                                    handle it holds *)
}.

(** A live timer; its callback is [() => this.#update!()] of [owner]. *)
Record timer : Type := mkTimer {
  tid : Z;
  owner : ref;
  delay : Z
}.

Record world : Type := mkWorld {
  objs : list Interval;
  timers : list timer;
  next_id : Z;
  host_state : host;
  durations : list (ref * duration_signal)
}.

Definition upd (o : ref) (f : Interval -> Interval) (w : world) : world :=
  mkWorld (alter f o (objs w)) (timers w) (next_id w) (host_state w)
          (durations w).

Definition with_host_state (v : host) (w : world) : world :=
  mkWorld (objs w) (timers w) (next_id w) v (durations w).

Definition with_durations (v : list (ref * duration_signal)) (w : world) : world :=
  mkWorld (objs w) (timers w) (next_id w) (host_state w) v.

Definition new_Interval (d : duration_spec) (w : world) : ref * world :=
  (length (objs w),
   mkWorld (objs w ++ [mkInterval d false None]) (timers w) (next_id w)
           (host_state w) (durations w)).

(** The value of the derived [#duration], which [get duration()]
    returns. *)
Definition duration (o : ref) (w : world) : Z :=
  resolve (host_state w) (from_option duration_input (Fixed 0) (objs w !! o)).

(** What a read of the derived [#duration] does to it. *)
Definition read_duration (o : ref) (w : world) : world :=
  match objs w !! o with
  | None => w
  | Some _ =>
      let d := duration o w in
      if decide (fst <$> map_get o (durations w) = Some d) then w
      else with_durations (map_set o (d, true) (durations w)) w
  end.

Definition clearInterval (id : Z) (w : world) : world :=
  mkWorld (objs w) (List.filter (fun t => negb (tid t =? id)) (timers w))
          (next_id w) (host_state w) (durations w).

(** Reading the derived [#interval]: it first brings [#duration] up to
    date; its value is kept while the value held by [#duration] has not
    changed since the last evaluation; otherwise [setInterval] is called
    again, and the handle held before is not cleared.  (The comparison of
    the duration with the one of the last evaluation is implied by the
    flag in every state a program reaches.) *)
Definition interval (o : ref) (w : world) : Z * world :=
  match objs w !! o with
  | None => (0, w)
  | Some i =>
      let w := read_duration o w in
      let d := duration o w in
      if decide (fst <$> interval_memo i = Some d /\
                 map_get o (durations w) = Some (d, false))
      then (from_option snd 0 (interval_memo i), w)
      else
        (next_id w,
         upd o (fun i => mkInterval (duration_input i) (update i)
                                    (Some (d, next_id w)))
           (mkWorld (objs w) (timers w ++ [mkTimer (next_id w) o d])
                    (next_id w + 1) (host_state w)
                    (map_set o (d, false) (durations w))))
  end.

(** [#clear = () => clearInterval(this.#interval)] *)
Definition clear (o : ref) (w : world) : world :=
  let '(id, w) := interval o w in
  clearInterval id w.

Definition subscribe (tracked : bool) (o : ref) (w : world) : world :=
  if tracked
  then upd o (fun i => mkInterval (duration_input i) true (interval_memo i)) w
  else w.

(** [get current()] *)
Definition current (tracked : bool) (o : ref) (w : world) : world :=
  subscribe tracked o (interval o w).2.

(** [set duration(value)] *)
Definition set_duration (value : duration_spec) (o : ref) (w : world) : world :=
  let w := clear o w in
  upd o (fun i => mkInterval value (update i) (interval_memo i)) w.

End Legacy.

(** ** The bundle-size script *)

(** [getCombinations] of the script that measures bundle sizes: the loops
    over [i], over [i < j] and over [i < j < k], in the order they push. *)
Module SizeScript.

(** The loop over [i < j]. *)
Fixpoint doubles {T} (arr : list T) : list (list T) :=
  match arr with
  | [] => []
  | x :: rest => ((fun y => [x; y]) <$> rest) ++ doubles rest
  end.

(** The loop over [i < j < k]. *)
Fixpoint triples {T} (arr : list T) : list (list T) :=
  match arr with
  | [] => []
  | x :: rest => (cons x <$> doubles rest) ++ triples rest
  end.

Definition getCombinations {T} (arr : list T) : list (list T) :=
  ((fun x => [x]) <$> arr) ++ doubles arr ++ triples arr.

End SizeScript.

(** ** Vocabulary of the properties *)

(** Is [o] a [LimitedInterval]? *)
Definition is_limited (o : ref) (w : world) : bool :=
  field (fun i => if limited i is Some _ then true else false) false o w.

(** The handlers as functions on the one object they write.  Count a tick
    and notify: the two lines the handlers share. *)
Definition count_tick (i : Interval) : Interval :=
  let i := with_tick_count (tick_count i + 1) i in
  if update i then with_notified (S (notified i)) i else i.

(** What [base_run] does to its object. *)
Definition base_tick (i : Interval) : Interval :=
  if negb (is_active i) then i else count_tick i.

(** What [limited_run] does to its object. *)
Definition limited_tick (i : Interval) : Interval :=
  if from_option is_completed false (limited i) then i
  else if negb (is_active i) then i
  else
    let i := count_tick i in
    if from_option max_ticks 0 (limited i)
       <=? tick_count i - from_option completion_baseline 0 (limited i)
    then with_is_active false
           (with_limited (with_is_completed true <$> limited i) i)
    else i.

(** [original_run_funcs.get(s).call(s)] *)
Definition call_saved (saved : list (ref * handler)) (w : world) (s : ref) : world :=
  match map_get s saved with
  | Some original_func => run original_func w
  | None => w
  end.

(** The number of objects and the controllers' closures. *)
Definition shape (w : world) : nat * list controller :=
  (length (objs w), ctrls w).

(** The part of a controller that its methods never assign. *)
Definition closure (k : controller) : list ref * ref * list (ref * handler) :=
  (c_intervals k, c_leader k, c_original_run_funcs k).

(** Objects are never freed and a controller keeps its closure. *)
Definition grows (w w' : world) : Prop :=
  (length (objs w) <= length (objs w'))%nat /\
  forall c, is_Some (ctrls w !! c) ->
            closure <$> ctrls w' !! c = closure <$> ctrls w !! c.

(** [ldr] is the first of the members with the least duration. *)
Definition first_minimum (ms : list ref) (w : world) (ldr : ref) : Prop :=
  exists i, ms !! i = Some ldr /\
    (forall j m, ms !! j = Some m -> duration ldr w <= duration m w) /\
    (forall j m, (j < i)%nat -> ms !! j = Some m -> duration ldr w < duration m w).

(** The loop of [disable]. *)
Definition restore (saved : list (ref * handler)) (w : world) (interval : ref) : world :=
  let w :=
    match map_get interval saved with
    | Some original_func => set_run_func interval original_func w
    | None => w
    end in
  force_restart interval w.

(** An object that is completed is not active. *)
Definition consistent (i : Interval) : Prop :=
  from_option is_completed false (limited i) = true -> is_active i = false.

(** Every completed object is inactive. *)
Definition completed_inactive (w : world) : Prop := Forall consistent (objs w).

(** The one operation that has to be kept away from a completed timer. *)
Definition guard (a : op) (w : world) : Prop :=
  match a with
  | Resume o _ => isCompleted o w = false
  | _ => True
  end.

(** Every [resume] in the sequence meets a timer that is not completed. *)
Fixpoint admissible (l : list op) (w : world) : Prop :=
  match l with
  | [] => True
  | a :: l => guard a w /\ admissible l (step a w)
  end.

(** The loop of [enable]. *)
Definition override (k : controller) (w : world) (interval : ref) : world :=
  if decide (interval = c_leader k)
  then set_run_func interval
         (LeaderRun (c_leader k) (c_intervals k) (c_original_run_funcs k)) w
  else set_run_func interval FollowerRun w.

(** [get tickCount()] without its side effect. *)
Definition tick (o : ref) (w : world) : Z := field tick_count 0 o w.

(** The derived [#duration] of [o] holds the present duration and has not
    changed since [#interval] was evaluated. *)
Definition duration_unchanged (o : ref) (w : world) : bool :=
  bool_decide (map_get o (durations w) = Some (duration o w, false)).

(** The derived [#interval] of [o] has been evaluated and nothing it reads
    has changed since: no write of [duration], no forced restart, no change
    of the value of [#duration].  A read will not touch the timer. *)
Definition up_to_date (o : ref) (w : world) : bool :=
  field (fun i => bool_decide (interval_memo i = Some (version i, duration o w)))
        false o w
  && duration_unchanged o w.

(** The derived [#interval] of [o] is stale or was never evaluated: the
    next read creates a timer. *)
Definition due (o : ref) (w : world) : bool :=
  field (fun _ => true) false o w && negb (up_to_date o w).

(** The derived [#interval] of [o] was evaluated at the present
    [#version]: no restart is pending. *)
Definition settled (o : ref) (w : world) : bool :=
  field (fun i => bool_decide (fst <$> interval_memo i = Some (version i)))
        false o w.

(** Wherever a derived [#duration] counts as unchanged, the value it holds
    is the one [#interval] was last evaluated from. *)
Definition signal_agrees (w : world) : Prop :=
  forall o v d c,
    field interval_memo None o w = Some (v, d) ->
    map_get o (durations w) = Some (c, false) -> c = d.

(** The same for the first revision. *)
Definition legacy_signal_agrees (w : Legacy.world) : Prop :=
  forall o i d id c,
    Legacy.objs w !! o = Some i -> Legacy.interval_memo i = Some (d, id) ->
    map_get o (Legacy.durations w) = Some (c, false) -> c = d.

(** The derived [#interval] of [o] was never computed. *)
Definition never_started (o : ref) (w : world) : bool :=
  field (fun i => bool_decide (interval_memo i = None)) false o w.

(** The host's side of the world. *)
Definition clock (w : world) : list timer * Z := (timers w, next_id w).

(** The host hands out positive ids, each larger than those in use. *)
Definition timers_wf (w : world) : Prop :=
  0 < next_id w /\ Forall (fun t => 0 < tid t < next_id w) (timers w).

(** The operations that run a tick handler. *)
Definition runs_handler (a : op) : bool :=
  match a with
  | Fire _ | Resume _ true => true
  | _ => false
  end.

(** * Properties *)

(** ** The store *)

Lemma objs_upd o f w : objs (upd o f w) = alter f o (objs w).
Proof. done. Qed.

Section store.
Context {A : Type} (g : Interval -> A) (d : A).

Lemma field_lookup o w i : objs w !! o = Some i -> field g d o w = g i.
Proof. unfold field. by intros ->. Qed.

Lemma field_upd_eq o f w i :
  objs w !! o = Some i -> field g d o (upd o f w) = g (f i).
Proof.
  intros H. unfold field. by rewrite objs_upd, list_lookup_alter_eq, H.
Qed.

Lemma field_upd_ne o o' f w :
  o <> o' -> field g d o' (upd o f w) = field g d o' w.
Proof.
  intros H. unfold field. by rewrite objs_upd, list_lookup_alter_ne.
Qed.

(** An update that [g] does not look at. *)
Lemma field_upd_same o o' f w :
  (forall i, g (f i) = g i) -> field g d o' (upd o f w) = field g d o' w.
Proof.
  intros H. destruct (decide (o = o')) as [<-|]; [|by apply field_upd_ne].
  unfold field. rewrite objs_upd, list_lookup_alter_eq.
  destruct (objs w !! o); simpl; [apply H | done].
Qed.

Lemma field_clearInterval id o w : field g d o (clearInterval id w) = field g d o w.
Proof. done. Qed.

Lemma field_setInterval h dl o w : field g d o (setInterval h dl w).2 = field g d o w.
Proof. done. Qed.

(** Reading the derived [#duration] writes no field. *)
Lemma field_read_duration o o' w : field g d o' (read_duration o w) = field g d o' w.
Proof.
  unfold read_duration. destruct (objs w !! o); [|done]. by case_decide.
Qed.

(** Reading the derived [#interval] writes [#interval_id] and the memo
    only. *)
Lemma field_interval_derived o o' w :
  (forall v i, g (with_interval_id v i) = g i) ->
  (forall v i, g (with_interval_memo v i) = g i) ->
  field g d o' (interval_derived o w) = field g d o' w.
Proof.
  intros H1 H2. unfold interval_derived.
  destruct (objs w !! o) as [i|]; [|done].
  case_decide; [apply field_read_duration|]. simpl.
  rewrite field_upd_same by (intros j; by rewrite H2, H1).
  etrans; [|apply (field_read_duration o)]. done.
Qed.

Lemma field_kickoff tracked o o' w :
  (forall v i, g (with_interval_id v i) = g i) ->
  (forall v i, g (with_interval_memo v i) = g i) ->
  (forall v i, g (with_update v i) = g i) ->
  field g d o' (kickoff_subscriptions tracked o w) = field g d o' w.
Proof.
  intros H1 H2 H3. unfold kickoff_subscriptions, subscribe.
  destruct tracked; [rewrite field_upd_same by apply H3|];
    by apply field_interval_derived.
Qed.
End store.

(** Reading [duration] writes the signals of the derived values only. *)
Lemma read_duration_signals o w :
  exists m, read_duration o w = with_durations m w.
Proof.
  exists (durations (read_duration o w)). unfold read_duration.
  destruct (objs w !! o); [case_decide|]; by destruct w.
Qed.

Lemma scan_reads_signals ms first w :
  exists m, scan_reads ms first w = with_durations m w.
Proof.
  unfold scan_reads. generalize w at 1 2 as w0. intros w0.
  assert (exists m, w = with_durations m w) as Hw
    by (exists (durations w); by destruct w).
  revert Hw. generalize w at 1 3 as w'. revert first.
  induction ms as [|x ms IH]; intros first w' Hw; simpl; [done|].
  apply IH. destruct Hw as [m ->].
  destruct (read_duration_signals x (with_durations m w)) as [m1 ->].
  destruct (read_duration_signals first (with_durations m1 (with_durations m w)))
    as [m2 ->].
  by exists m2.
Qed.

(** [sync] adds a controller and, by its reads of [duration], writes the
    signals of the derived values; it writes nothing else. *)
Lemma sync_unfold first rest w :
  exists m,
    sync (first :: rest) w
    = Returned (length (ctrls w))
        (with_ctrls
           (ctrls w ++ [mkController (first :: rest)
                          (find_leader (first :: rest) first w)
                          (capture_run_funcs (first :: rest) w) false])
           (with_durations m w)).
Proof.
  destruct (scan_reads_signals (first :: rest) first w) as [m Hm].
  exists m. unfold sync. cbv zeta. by rewrite Hm.
Qed.

Lemma lookup_upd_eq o f w : objs (upd o f w) !! o = f <$> objs w !! o.
Proof. apply list_lookup_alter_eq. Qed.

Lemma lookup_upd_ne o o' f w : o <> o' -> objs (upd o f w) !! o' = objs w !! o'.
Proof. apply list_lookup_alter_ne. Qed.

Lemma length_objs_upd o f w : length (objs (upd o f w)) = length (objs w).
Proof. apply length_alter. Qed.

(** ** Interval.isStopped *)

(** C1.  The getter compares the handle id with 0, the value the field is
    initialised with, so an [Interval] that was just constructed without
    [immediate], and on which [stop] was never called, already reports
    [isStopped] as true. *)
Theorem isStopped_of_fresh_Interval tracked d w :
  isStopped (new_Interval tracked d false w).1
            (new_Interval tracked d false w).2 = true.
Proof.
  unfold isStopped, new_Interval. simpl.
  by erewrite field_lookup by by apply list_lookup_middle.
Qed.

(** ** Interval.stop *)

(** C3.  After [stop], [resume(true)] counts a tick on the spot, and a read
    of [current] then creates a fresh live timer whose firings count too;
    a write of [duration] followed by a read brings a live timer back as
    well. *)
Theorem stop_then_resume_ticks_again :
  let w0 := exec [NewInterval (Fixed 1000) false false; Current 0 false; Stop 0]
                 init_world in
  let w1 := exec [Resume 0 true] w0 in
  let w2 := exec [Current 0 false] w1 in
  let w3 := exec [Fire 2] w2 in
  let w4 := exec [SetDuration 0 (Fixed 500); TickCount 0 false] w0 in
  isStopped 0 w0 = true /\ timers w0 = [] /\ field tick_count 0 0 w0 = 0 /\
  field tick_count 0 0 w1 = 1 /\
  isStopped 0 w2 = false /\ timers w2 = [mkTimer 2 (BaseRun 0) 1000] /\
  field tick_count 0 0 w3 = 2 /\
  isStopped 0 w4 = false /\ timers w4 = [mkTimer 2 (BaseRun 0) 500].
Proof. vm_compute. repeat split. Qed.

(** ** sync: followers that were already running *)

(** C4.  A member whose timer was created before [enable] keeps the handler
    that timer was bound to: [enable] swaps the [#run_func] field of a
    follower but does not force a restart of its timer, so the firing of
    the follower's own timer still counts a tick. *)
Theorem follower_timer_still_counts :
  let w := exec [NewInterval (Fixed 300) false false;
                 NewInterval (Fixed 100) false false;
                 Current 0 false;
                 Sync [0; 1]%nat;
                 Enable 0 false] init_world in
  isSynced 0 w = true /\ leader 0 w = Some 1%nat /\
  field run_func FollowerRun 0 w = FollowerRun /\
  List.find (fun t => tid t =? 1) (timers w) = Some (mkTimer 1 (BaseRun 0) 300) /\
  field tick_count 0 0 w = 0 /\
  field tick_count 0 0 (exec [Fire 1] w) = 1.
Proof. vm_compute. repeat split. Qed.

(** ** LimitedInterval.maxTicks *)

Lemma is_limited_lookup o w :
  is_limited o w = true ->
  exists i l, objs w !! o = Some i /\ limited i = Some l.
Proof.
  unfold is_limited, field. destruct (objs w !! o) as [i|]; [|done].
  simpl. destruct (limited i) as [l|] eqn:E; [|done]. eauto.
Qed.

Lemma lfield_lupd_eq {A} (g : LimitedInterval -> A) d o f w :
  lfield g d o (lupd o f w) = lfield (fun l => g (f l)) d o w.
Proof.
  unfold lfield, lupd, field. rewrite objs_upd, list_lookup_alter_eq.
  destruct (objs w !! o) as [i|]; [|done]. simpl. by destruct (limited i).
Qed.

Lemma lfield_lupd_ne {A} (g : LimitedInterval -> A) d o o' f w :
  o <> o' -> lfield g d o' (lupd o f w) = lfield g d o' w.
Proof. intros. by apply field_upd_ne. Qed.

Lemma is_limited_lupd o o' f w : is_limited o' (lupd o f w) = is_limited o' w.
Proof.
  apply field_upd_same. intros i. simpl. by destruct (limited i).
Qed.

(** Closes the side condition of [field_upd_same] and its like: the field
    read is not among those the update writes. *)
Ltac untouched := intros; simpl; repeat case_match; done.

(** C10.  A rejected write throws before it touches anything: the world
    with the exception is the world before the call, so every read gives
    what it gave before. *)
Theorem set_maxTicks_rejected_no_mutation v o w :
  v <= 0 ->
  set_maxTicks v o w = Thrown MaxTicksError w /\
  let w' := world_of (set_maxTicks v o w) in
  maxTicks o w' = maxTicks o w /\ isCompleted o w' = isCompleted o w /\
  baseline o w' = baseline o w /\
  field tick_count 0 o w' = field tick_count 0 o w /\
  isActive o w' = isActive o w.
Proof.
  intros Hv. unfold set_maxTicks.
  destruct (Z.leb_spec v 0); [done | lia].
Qed.

Lemma set_maxTicks_rejected_no_mutation_witness :
  set_maxTicks (-1) 0
    (exec [NewLimitedInterval (Fixed 100) 5 false false] init_world)
  = Thrown MaxTicksError
      (exec [NewLimitedInterval (Fixed 100) 5 false false] init_world).
Proof.
  apply (set_maxTicks_rejected_no_mutation (-1) 0). lia.
Defined.

(** C8.  A limit that is not positive is refused at construction and at
    the write; a positive one is stored by the write, which also clears
    [isCompleted] and leaves the completion baseline alone. *)
Theorem maxTicks_validated :
  (forall tracked d n immediate w, n <= 0 ->
     exists w', new_LimitedInterval tracked d n immediate w
                = Thrown MaxTicksError w') /\
  (forall n o w, n <= 0 ->
     exists w', set_maxTicks n o w = Thrown MaxTicksError w') /\
  (forall n o w, 0 < n -> is_limited o w = true ->
     exists w', set_maxTicks n o w = Returned tt w' /\
  maxTicks o w' = n /\ isCompleted o w' = false /\
  baseline o w' = baseline o w).
Proof.
  split; [|split].
  - intros tracked d n immediate w Hn. unfold new_LimitedInterval.
    destruct (new_Interval tracked d immediate w) as [self w'].
    exists w'. destruct (Z.leb_spec n 0); [done | lia].
  - intros n o w Hn. exists w. unfold set_maxTicks.
    destruct (Z.leb_spec n 0); [done | lia].
  - intros n o w Hn Hl. unfold set_maxTicks.
    destruct (Z.leb_spec n 0); [lia|]. eexists. split; [done|].
    unfold maxTicks, isCompleted, baseline.
    rewrite !lfield_lupd_eq. simpl.
    apply is_limited_lookup in Hl as (i & l & Hi & Hl). unfold lfield.
    rewrite !(field_lookup _ _ _ _ _ Hi), Hl. done.
Qed.

Lemma maxTicks_validated_witness :
  (exists w', new_LimitedInterval false (Fixed 100) 0 false init_world
              = Thrown MaxTicksError w') /\
  (exists w', set_maxTicks (-1) 0
                (exec [NewLimitedInterval (Fixed 100) 2 false false] init_world)
              = Thrown MaxTicksError w') /\
  (exists w', set_maxTicks 5 0
                (exec [NewLimitedInterval (Fixed 100) 2 false false] init_world)
              = Returned tt w' /\ maxTicks 0 w' = 5 /\
  isCompleted 0 w' = false /\ baseline 0 w' = 0).
Proof.
  destruct maxTicks_validated as (H1 & H2 & H3).
  split; [|split].
  - apply H1. lia.
  - apply H2. lia.
  - apply (H3 5 0%nat); [lia | reflexivity].
Defined.

(** ** LimitedInterval.remainingTicks *)

Lemma tickCount_value tracked o w :
  (tickCount tracked o w).1 = field tick_count 0 o w.
Proof. unfold tickCount. simpl. by apply field_kickoff. Qed.

Lemma remainingTicks_value tracked o w :
  (remainingTicks tracked o w).1
  = Z.max 0 (maxTicks o w - (field tick_count 0 o w - baseline o w)).
Proof.
  unfold remainingTicks, tickCount, maxTicks, baseline, lfield. simpl.
  by rewrite !field_kickoff.
Qed.

(** *** The handlers as functions on one object *)

Lemma upd_upd o f g w : upd o f (upd o g w) = upd o (f ∘ g) w.
Proof.
  unfold upd, with_objs. simpl. f_equal. apply list_alter_alter_eq.
Qed.

Lemma upd_ext o f g w :
  (forall i, objs w !! o = Some i -> f i = g i) -> upd o f w = upd o g w.
Proof.
  intros H. unfold upd. f_equal. by apply list_alter_ext.
Qed.

Lemma upd_same o f w :
  (forall i, objs w !! o = Some i -> f i = i) -> upd o f w = w.
Proof.
  intros H. unfold upd. rewrite (list_alter_ext f id (objs w) (objs w) o); auto.
  rewrite list_alter_id by done. by destruct w.
Qed.

Lemma count_tick_upd o w :
  trigger_update o (increment_tick o w) = upd o count_tick w.
Proof. unfold trigger_update, increment_tick. by rewrite upd_upd. Qed.

Lemma base_run_upd o w : base_run o w = upd o base_tick w.
Proof.
  unfold base_run, isActive, field. rewrite count_tick_upd.
  destruct (objs w !! o) as [i|] eqn:Hi; simpl.
  - destruct (is_active i) eqn:Ha; simpl.
    + apply upd_ext. intros j Hj. unfold base_tick.
      assert (j = i) as -> by congruence. by rewrite Ha.
    + symmetry. apply upd_same. intros j Hj. unfold base_tick.
      assert (j = i) as -> by congruence. by rewrite Ha.
  - symmetry. apply upd_same. congruence.
Qed.

Lemma limited_run_upd o w : limited_run o w = upd o limited_tick w.
Proof.
  unfold limited_run. rewrite count_tick_upd.
  unfold isCompleted, maxTicks, baseline, isActive, lfield, pause, lupd.
  destruct (objs w !! o) as [i|] eqn:Hi.
  - rewrite !(field_lookup _ _ _ _ _ Hi), !(field_upd_eq _ _ _ _ _ _ Hi).
    rewrite !upd_upd.
    destruct (from_option is_completed false (limited i)) eqn:Hc;
      [|destruct (is_active i) eqn:Ha; simpl;
        [destruct (_ <=? _) eqn:Hm|]].
    + symmetry. apply upd_same. intros j Hj. unfold limited_tick.
      assert (j = i) as -> by congruence. by rewrite Hc.
    + apply upd_ext. intros j Hj. unfold limited_tick.
      assert (j = i) as -> by congruence. rewrite Hc, Ha. simpl.
      by rewrite Hm.
    + apply upd_ext. intros j Hj. unfold limited_tick.
      assert (j = i) as -> by congruence. rewrite Hc, Ha. simpl.
      by rewrite Hm.
    + symmetry. apply upd_same. intros j Hj. unfold limited_tick.
      assert (j = i) as -> by congruence. by rewrite Hc, Ha.
  - unfold field at 1 2. rewrite Hi. simpl.
    symmetry. apply upd_same. congruence.
Qed.

(** One run of the [LimitedInterval] handler on a timer that is active and
    not completed. *)
Lemma limited_run_counts o w :
  is_limited o w = true -> isCompleted o w = false -> isActive o w = true ->
  let w' := limited_run o w in
  field tick_count 0 o w' = field tick_count 0 o w + 1 /\
  baseline o w' = baseline o w /\ maxTicks o w' = maxTicks o w /\
  is_limited o w' = true /\
  isCompleted o w'
  = (maxTicks o w <=? field tick_count 0 o w + 1 - baseline o w) /\
  isActive o w' = negb (isCompleted o w').
Proof.
  intros Hl Hc Ha. simpl. rewrite limited_run_upd.
  apply is_limited_lookup in Hl as (i & l & Hi & Hl).
  unfold isCompleted, maxTicks, baseline, isActive, is_limited, lfield in *.
  rewrite !(field_upd_eq _ _ _ _ _ _ Hi).
  rewrite !(field_lookup _ _ _ _ _ Hi) in *.
  unfold limited_tick, count_tick. rewrite Hl in *. simpl in *.
  rewrite Hc, Ha. simpl.
  destruct (update i); simpl; rewrite Hl; simpl;
    destruct (max_ticks l <=? _) eqn:Hm; simpl; rewrite ?Hl; simpl.
  all: rewrite ?Hc, ?Ha; done.
Qed.

(** C7.  [remainingTicks] is [max(0, maxTicks - (tickCount - baseline))] of
    the state it is read in, hence never negative, and it is 0 in the state
    the handler leaves when it sets [isCompleted]. *)
Theorem remainingTicks_formula tracked o w :
  (remainingTicks tracked o w).1
  = Z.max 0 (maxTicks o w - (field tick_count 0 o w - baseline o w)) /\
  0 <= (remainingTicks tracked o w).1 /\
  (isCompleted o w = false -> isCompleted o (limited_run o w) = true ->
   (remainingTicks tracked o (limited_run o w)).1 = 0).
Proof.
  rewrite !remainingTicks_value. split; [done|]. split; [lia|].
  intros Hc Hc'.
  destruct (is_limited o w) eqn:Hl.
  - destruct (isActive o w) eqn:Ha.
    + destruct (limited_run_counts o w Hl Hc Ha) as (-> & -> & -> & _ & E & _).
      rewrite Hc' in E. symmetry in E. apply Z.leb_le in E. lia.
    + unfold limited_run in Hc'. rewrite Hc, Ha in Hc'. simpl in Hc'. congruence.
  - rewrite limited_run_upd in Hc'. unfold isCompleted, is_limited, lfield, field in *.
    rewrite objs_upd, list_lookup_alter_eq in Hc'.
    destruct (objs w !! o) as [i|]; [|done]. simpl in *.
    destruct (limited i) eqn:E; [done|].
    unfold limited_tick, count_tick in Hc'. rewrite E in Hc'. simpl in Hc'.
    destruct (is_active i); simpl in Hc'; [|by rewrite E in Hc'].
    destruct (update i); simpl in Hc'; rewrite E in Hc'; simpl in Hc';
      destruct (0 <=? _); simpl in Hc'; by rewrite ?E in Hc'.
Qed.

Lemma remainingTicks_formula_witness :
  (remainingTicks false 0
     (limited_run 0
        (exec [NewLimitedInterval (Fixed 100) 2 false false;
               Current 0 false; Fire 1] init_world))).1 = 0.
Proof.
  destruct (remainingTicks_formula false 0
              (exec [NewLimitedInterval (Fixed 100) 2 false false;
                     Current 0 false; Fire 1] init_world)) as (_ & _ & H).
  apply H; reflexivity.
Defined.

(** ** LimitedInterval.reset *)

Lemma lfield_upd_same {A} (g : LimitedInterval -> A) d o o' f w :
  (forall i, limited (f i) = limited i) ->
  lfield g d o' (upd o f w) = lfield g d o' w.
Proof. intros H. apply field_upd_same. intros i. by rewrite H. Qed.

Lemma is_limited_upd_same o o' f w :
  (forall i, limited (f i) = limited i) ->
  is_limited o' (upd o f w) = is_limited o' w.
Proof. intros H. apply field_upd_same. intros i. by rewrite H. Qed.

Lemma lfield_kickoff {A} (g : LimitedInterval -> A) d tracked o o' w :
  lfield g d o' (kickoff_subscriptions tracked o w) = lfield g d o' w.
Proof. by apply field_kickoff. Qed.

Lemma is_limited_kickoff tracked o o' w :
  is_limited o' (kickoff_subscriptions tracked o w) = is_limited o' w.
Proof. by apply field_kickoff. Qed.

Lemma lfield_const {A} (v d : A) o w :
  is_limited o w = true -> lfield (fun _ => v) d o w = v.
Proof.
  intros (i & l & Hi & Hl)%is_limited_lookup.
  unfold lfield. by rewrite (field_lookup _ _ _ _ _ Hi), Hl.
Qed.

(** Rewrites with the frame lemmas of the store: reads that an update or
    the start of the timer cannot have changed. *)
Ltac frame :=
  repeat first
    [ rewrite field_upd_same by untouched
    | rewrite lfield_upd_same by untouched
    | rewrite is_limited_upd_same by untouched
    | rewrite field_kickoff by untouched
    | rewrite lfield_kickoff
    | rewrite is_limited_kickoff
    | rewrite is_limited_lupd
    | rewrite field_interval_derived by untouched ].

(** [k] runs of the handler that stay below the limit: each is counted and
    none completes. *)
Lemma limited_run_below (k : nat) o w :
  is_limited o w = true -> isCompleted o w = false -> isActive o w = true ->
  field tick_count 0 o w - baseline o w + Z.of_nat k < maxTicks o w ->
  let w' := Nat.iter k (limited_run o) w in
  is_limited o w' = true /\ isCompleted o w' = false /\ isActive o w' = true /\
  field tick_count 0 o w' = field tick_count 0 o w + Z.of_nat k /\
  baseline o w' = baseline o w /\ maxTicks o w' = maxTicks o w.
Proof.
  intros Hl Hc Ha. induction k as [|k IH]; intros Hk; simpl.
  - repeat split; try done. lia.
  - destruct IH as (Hl' & Hc' & Ha' & Ht & Hb & Hm); [lia|].
    destruct (limited_run_counts o _ Hl' Hc' Ha') as (-> & -> & -> & -> & E & ->).
    rewrite E, Hm, Ht, Hb.
    destruct (Z.leb_spec (maxTicks o w)
                (field tick_count 0 o w + Z.of_nat k + 1 - baseline o w));
      [lia|]. repeat split; try done. lia.
Qed.

Lemma reset_fields tracked o w :
  is_limited o w = true ->
  let w' := reset tracked o w in
  is_limited o w' = true /\ isCompleted o w' = false /\ isActive o w' = true /\
  baseline o w' = field tick_count 0 o w /\
  field tick_count 0 o w' = field tick_count 0 o w /\
  maxTicks o w' = maxTicks o w /\
  field version 0 o w' = field version 0 o w.
Proof.
  intros Hl. unfold reset. rewrite (surjective_pairing (tickCount _ _ _)).
  rewrite tickCount_value. unfold tickCount. simpl.
  set (w1 := lupd o (with_is_completed false) w).
  set (tc := field tick_count 0 o w1).
  set (w3 := lupd o (with_completion_baseline tc)
                  (kickoff_subscriptions tracked o w1)).
  assert (Htc : tc = field tick_count 0 o w)
    by (unfold tc, w1, lupd; by frame).
  assert (Hl3 : is_limited o w3 = true) by (unfold w3, w1; by frame).
  assert (Hc3 : isCompleted o w3 = false).
  { unfold w3, w1, isCompleted. rewrite lfield_lupd_eq. simpl. frame.
    rewrite lfield_lupd_eq. simpl. by apply lfield_const. }
  assert (Hb3 : baseline o w3 = field tick_count 0 o w).
  { unfold w3, baseline. rewrite lfield_lupd_eq. simpl. rewrite Htc.
    apply lfield_const. unfold w1. by frame. }
  assert (Ht3 : field tick_count 0 o w3 = field tick_count 0 o w)
    by (unfold w3, w1, lupd; by frame).
  assert (Hm3 : maxTicks o w3 = maxTicks o w).
  { unfold w3, w1, maxTicks. rewrite lfield_lupd_eq. simpl. frame.
    by rewrite lfield_lupd_eq. }
  assert (Hv3 : field version 0 o w3 = field version 0 o w)
    by (unfold w3, w1, lupd; by frame).
  destruct (isActive o w3) eqn:Ha3; simpl; [done|].
  unfold resume, isActive, isCompleted, baseline, maxTicks in *.
  repeat split; frame; try done.
  apply is_limited_lookup in Hl3 as (i & l & Hi & _).
  by rewrite (field_upd_eq _ _ _ _ _ _ Hi).
Qed.

(** What [reset] does by itself, and what follows when the ticks after it
    are runs of the limiting handler: [reset] clears [isCompleted], moves
    the baseline to the current [tickCount], leaves the timer active
    without an immediate tick or a restart, and keeps [tickCount]; from
    there the first [maxTicks - 1] runs of the limiting handler do not
    complete and the [maxTicks]-th does. *)
Theorem reset_restarts_the_count tracked o w :
  is_limited o w = true -> 0 < maxTicks o w ->
  let w' := reset tracked o w in
  isCompleted o w' = false /\
  baseline o w' = field tick_count 0 o w /\
  isActive o w' = true /\
  field version 0 o w' = field version 0 o w /\
  field tick_count 0 o w' = field tick_count 0 o w /\
  (forall k : nat, Z.of_nat k < maxTicks o w ->
     isCompleted o (Nat.iter k (limited_run o) w') = false /\
     field tick_count 0 o (Nat.iter k (limited_run o) w')
     = field tick_count 0 o w + Z.of_nat k) /\
  isCompleted o (Nat.iter (Z.to_nat (maxTicks o w)) (limited_run o) w') = true.
Proof.
  intros Hl Hpos. simpl.
  destruct (reset_fields tracked o w Hl) as (Hl' & Hc & Ha & Hb & Ht & Hm & Hv).
  repeat split; try done.
  - by apply limited_run_below; [..|lia].
  - destruct (limited_run_below k o _ Hl' Hc Ha) as (_ & _ & _ & Hk & _);
      [lia|]. by rewrite Hk, Ht.
  - replace (Z.to_nat (maxTicks o w)) with (S (Z.to_nat (maxTicks o w - 1)))
      by lia. simpl.
    destruct (limited_run_below (Z.to_nat (maxTicks o w - 1)) o _ Hl' Hc Ha)
      as (Hl2 & Hc2 & Ha2 & Ht2 & Hb2 & Hm2); [lia|].
    destruct (limited_run_counts o _ Hl2 Hc2 Ha2) as (_ & _ & _ & _ & -> & _).
    apply Z.leb_le. lia.
Qed.

Lemma reset_restarts_the_count_witness :
  isCompleted 0
    (Nat.iter 2 (limited_run 0)
       (reset false 0
          (exec [NewLimitedInterval (Fixed 100) 2 false false;
                 Current 0 false; Fire 1; Fire 1] init_world))) = true.
Proof.
  apply (reset_restarts_the_count false 0
           (exec [NewLimitedInterval (Fixed 100) 2 false false;
                  Current 0 false; Fire 1; Fire 1] init_world));
    [reflexivity | vm_compute; reflexivity].
Defined.

(** C6.  On a [LimitedInterval] constructed with the [immediate] option
    the ticks counted after [reset] do not complete it.  The timer was
    created inside [super], before the limiting handler was installed, so
    it holds the plain handler, and [reset] does not restart it: with
    [maxTicks] 2, three firings after [reset] count three ticks and leave
    the interval active and not completed, with no ticks remaining; the
    same happens when [reset] comes after a first tick.  Without the
    option the timer is created by the first read and the second firing
    after [reset] completes the interval. *)
Theorem reset_on_immediate_LimitedInterval_never_completes :
  let w0 := exec [NewLimitedInterval (Fixed 100) 2 true false; Reset 0 false]
                 init_world in
  let w3 := exec [Fire 1; Fire 1; Fire 1] w0 in
  let w1 := exec [NewLimitedInterval (Fixed 100) 2 true false; Fire 1;
                  Reset 0 false] init_world in
  let w4 := exec [Fire 1; Fire 1; Fire 1] w1 in
  let w5 := exec [NewLimitedInterval (Fixed 100) 2 false false; Reset 0 false;
                  Fire 1; Fire 1] init_world in
  timers w5 = [mkTimer 1 (LimitedRun 0) 100] /\
  field tick_count 0 0 w5 = 2 /\ isCompleted 0 w5 = true /\
  timers w0 = [mkTimer 1 (BaseRun 0) 100] /\
  field run_func FollowerRun 0 w0 = LimitedRun 0 /\
  maxTicks 0 w0 = 2 /\ baseline 0 w0 = 0 /\ field tick_count 0 0 w0 = 0 /\
  isCompleted 0 w0 = false /\ isActive 0 w0 = true /\
  field tick_count 0 0 w3 = 3 /\
  isCompleted 0 w3 = false /\ isActive 0 w3 = true /\
  (remainingTicks false 0 w3).1 = 0 /\
  baseline 0 w1 = 1 /\ field tick_count 0 0 w1 = 1 /\
  field tick_count 0 0 w4 = 4 /\
  isCompleted 0 w4 = false /\ isActive 0 w4 = true.
Proof. vm_compute. repeat split. Qed.

(** ** Running handlers *)

(** Induction on handlers, with the saved handlers of a leader closure as
    sub-handlers. *)
Lemma handler_nested_ind (P : handler -> Prop) :
  (forall o, P (BaseRun o)) ->
  (forall o, P (LimitedRun o)) ->
  P FollowerRun ->
  (forall ldr ivs saved,
     Forall (fun p => P p.2) saved -> P (LeaderRun ldr ivs saved)) ->
  forall h, P h.
Proof.
  intros Hb Hl Hf Hs. fix IH 1. intros [o|o|ldr ivs saved|].
  - apply Hb.
  - apply Hl.
  - apply Hs. induction saved as [|[k h] saved IHs]; constructor.
    + apply IH.
    + apply IHs.
  - apply Hf.
Qed.

Lemma run_leader ldr ivs saved w :
  run (LeaderRun ldr ivs saved) w
  = if negb (isActive ldr w) then w else fold_left (call_saved saved) ivs w.
Proof.
  simpl. destruct (negb (isActive ldr w)); [done|].
  revert w. induction ivs as [|s ivs IH]; intros w; simpl; [done|].
  rewrite IH. f_equal. clear IH. unfold call_saved.
  induction saved as [|[k f] saved IHs]; simpl; [done|].
  destruct (decide (k = s)); [done | apply IHs].
Qed.

Lemma map_get_Some {V} k (v : V) m : map_get k m = Some v -> (k, v) ∈ m.
Proof.
  induction m as [|[k' v'] m IH]; simpl; [done|].
  destruct (decide (k' = k)) as [->|].
  - intros [= ->]. left.
  - intros H. right. by apply IH.
Qed.

(** What the two primitive handlers preserve, every handler preserves. *)
Lemma run_preserves (P : world -> Prop) :
  (forall o w, P w -> P (base_run o w)) ->
  (forall o w, P w -> P (limited_run o w)) ->
  forall h w, P w -> P (run h w).
Proof.
  intros Hb Hl h. induction h as [o|o| |ldr ivs saved IH] using handler_nested_ind;
    intros w Hw; simpl; auto.
  change (P (run (LeaderRun ldr ivs saved) w)). rewrite run_leader.
  destruct (negb (isActive ldr w)); [done|].
  revert w Hw. induction ivs as [|s ivs IHi]; intros w Hw; simpl; [done|].
  apply IHi. unfold call_saved.
  destruct (map_get s saved) as [f|] eqn:E; [|done].
  apply map_get_Some, list_elem_of_In in E. rewrite Forall_forall in IH.
  by apply (IH _ E).
Qed.

(** ** What no operation changes *)

Lemma shape_upd o f w : shape (upd o f w) = shape w.
Proof. unfold shape. simpl. by rewrite length_alter. Qed.

Lemma shape_clearInterval id w : shape (clearInterval id w) = shape w.
Proof. done. Qed.

Lemma shape_read_duration o w : shape (read_duration o w) = shape w.
Proof. by destruct (read_duration_signals o w) as [m ->]. Qed.

Lemma shape_interval_derived o w : shape (interval_derived o w) = shape w.
Proof.
  unfold interval_derived. destruct (objs w !! o); [|done].
  case_decide; [apply shape_read_duration|]. simpl. rewrite shape_upd.
  etrans; [|apply (shape_read_duration o)]. done.
Qed.

Lemma shape_kickoff tracked o w :
  shape (kickoff_subscriptions tracked o w) = shape w.
Proof.
  unfold kickoff_subscriptions, subscribe.
  destruct tracked; by rewrite ?shape_upd, shape_interval_derived.
Qed.

Lemma shape_run h w : shape (run h w) = shape w.
Proof.
  apply (run_preserves (fun w' => shape w' = shape w)); [| |done].
  - intros o w' <-. rewrite base_run_upd. apply shape_upd.
  - intros o w' <-. rewrite limited_run_upd. apply shape_upd.
Qed.

Lemma shape_resume immediate o w : shape (resume immediate o w) = shape w.
Proof.
  unfold resume, force_restart.
  destruct immediate; by rewrite ?shape_run, ?shape_upd.
Qed.

Lemma shape_reset tracked o w : shape (reset tracked o w) = shape w.
Proof.
  unfold reset, tickCount, lupd. simpl.
  destruct (negb _);
    by rewrite ?shape_resume, ?shape_upd, shape_kickoff, shape_upd.
Qed.

Lemma shape_fire id w : shape (fire id w) = shape w.
Proof. unfold fire. destruct (List.find _ _); [apply shape_run | done]. Qed.

Lemma grows_refl w : grows w w.
Proof. by split. Qed.

Lemma grows_trans w1 w2 w3 : grows w1 w2 -> grows w2 w3 -> grows w1 w3.
Proof.
  intros [H1 H2] [H3 H4]. split; [lia|]. intros c Hc.
  rewrite H4, H2; [done..|]. specialize (H2 c Hc).
  destruct Hc as [k Hk]. rewrite Hk in H2.
  destruct (ctrls w2 !! c); [eauto | done].
Qed.

Lemma grows_shape w w' : shape w' = shape w -> grows w w'.
Proof. unfold shape. intros [= H1 H2]. unfold grows. by rewrite H1, H2. Qed.

Lemma grows_alter_sync_active b c w w' :
  shape w' = shape w ->
  grows w (with_ctrls (alter (with_sync_active b) c (ctrls w')) w').
Proof.
  unfold shape. intros [= H1 H2]. split; simpl; [lia|]. intros c' Hc'.
  rewrite H2. rewrite list_lookup_alter. case_decide; [|done].
  subst. by destruct (ctrls w !! c').
Qed.

Lemma shape_fold_left {X} (f : world -> X -> world) l w :
  (forall w x, shape (f w x) = shape w) -> shape (fold_left f l w) = shape w.
Proof.
  intros H. revert w. induction l as [|x l IH]; intros w; simpl; [done|].
  by rewrite IH, H.
Qed.

Lemma grows_new_Interval tracked d immediate w :
  grows w (new_Interval tracked d immediate w).2.
Proof.
  unfold new_Interval. simpl.
  eapply grows_trans; [|apply grows_shape;
    destruct immediate; [apply shape_kickoff | done]].
  split; simpl; [|done]. rewrite length_app. lia.
Qed.

Lemma grows_enable tracked c w : grows w (enable tracked c w).
Proof.
  unfold enable. destruct (ctrls w !! c) as [k|]; [|apply grows_refl].
  destruct (sync_active k); [apply grows_refl|].
  eapply grows_trans; [by apply (grows_alter_sync_active true c w w)|].
  apply grows_shape. unfold force_restart, current.
  rewrite shape_upd, shape_kickoff. apply shape_fold_left.
  intros w' x. unfold set_run_func. case_decide; apply shape_upd.
Qed.

Lemma grows_disable c w : grows w (disable c w).
Proof.
  unfold disable. destruct (ctrls w !! c) as [k|]; [|apply grows_refl].
  destruct (negb (sync_active k)); [apply grows_refl|].
  eapply grows_trans; [by apply (grows_alter_sync_active false c w w)|].
  apply grows_shape. apply shape_fold_left.
  intros w' x. unfold force_restart, set_run_func. rewrite shape_upd.
  destruct (map_get _ _); [apply shape_upd | done].
Qed.

Lemma grows_step a w : grows w (step a w).
Proof.
  destruct a; simpl.
  - apply grows_new_Interval.
  - unfold new_LimitedInterval.
    pose proof (grows_new_Interval tracked d immediate w) as H.
    destruct (new_Interval tracked d immediate w) as [self w'].
    destruct (_ <=? 0); simpl; [done|].
    eapply grows_trans; [exact H|].
    apply grows_shape. by rewrite !shape_upd.
  - apply grows_shape, shape_kickoff.
  - apply grows_shape, shape_kickoff.
  - apply grows_shape. unfold set_duration, force_restart. by rewrite !shape_upd.
  - apply grows_shape, shape_upd.
  - apply grows_shape, shape_resume.
  - apply grows_shape. unfold stop. by rewrite !shape_upd.
  - by apply grows_shape.
  - apply grows_shape. unfold teardown. by destruct (field update _ _ _).
  - apply grows_shape. unfold remainingTicks, tickCount. simpl.
    apply shape_kickoff.
  - apply grows_shape, shape_reset.
  - apply grows_shape. unfold set_maxTicks, lupd.
    destruct (new_max <=? 0); simpl; [done|]. by rewrite !shape_upd.
  - destruct intervals as [|first rest]; [apply grows_refl|].
    destruct (sync_unfold first rest w) as [m ->].
    split; simpl; [done|]. intros c Hc.
    by rewrite lookup_app_l by by apply lookup_lt_is_Some.
  - apply grows_enable.
  - apply grows_disable.
  - apply grows_shape, shape_fire.
  - by apply grows_shape.
  - apply grows_shape, shape_read_duration.
Qed.

Lemma grows_exec l w : grows w (exec l w).
Proof.
  revert w. induction l as [|a l IH]; intros w; simpl; [apply grows_refl|].
  eapply grows_trans; [apply grows_step | apply IH].
Qed.

(** The [leader] getter keeps its value whatever happens later. *)
Lemma leader_exec c l w ldr : leader c w = Some ldr -> leader c (exec l w) = Some ldr.
Proof.
  unfold leader. intros H. destruct (grows_exec l w) as [_ Hg].
  specialize (Hg c). destruct (ctrls w !! c) as [k|] eqn:Hk; [|done].
  specialize (Hg (ex_intro _ k eq_refl)). simpl in *.
  destruct (ctrls (exec l w) !! c) as [k'|]; [|done]. simpl in *.
  unfold closure in Hg. congruence.
Qed.

(** ** sync: the leader *)

Lemma first_minimum_step p w acc x :
  first_minimum p w acc ->
  first_minimum (p ++ [x]) w
    (if duration x w <? duration acc w then x else acc).
Proof.
  intros (i & Hi & Hle & Hlt).
  destruct (Z.ltb_spec (duration x w) (duration acc w)) as [Hx|Hx].
  - exists (length p). split; [by apply list_lookup_middle|]. split.
    + intros j m Hj. apply lookup_app_Some in Hj as [Hj|[_ Hj]].
      * specialize (Hle j m Hj). lia.
      * apply list_lookup_singleton_Some in Hj as [_ <-]. lia.
    + intros j m Hlen Hj. rewrite lookup_app_l in Hj by done.
      specialize (Hle j m Hj). lia.
  - exists i. split; [by apply lookup_app_l_Some|]. split.
    + intros j m Hj. apply lookup_app_Some in Hj as [Hj|[_ Hj]].
      * by apply (Hle j).
      * by apply list_lookup_singleton_Some in Hj as [_ <-].
    + intros j m Hji Hj. apply (Hlt j m Hji).
      apply lookup_lt_Some in Hi. by rewrite lookup_app_l in Hj by lia.
Qed.

Lemma first_minimum_scan rest p w acc :
  first_minimum p w acc ->
  first_minimum (p ++ rest) w
    (fold_left (fun ldr x => if duration x w <? duration ldr w then x else ldr)
               rest acc).
Proof.
  revert p acc. induction rest as [|x rest IH]; intros p acc H; simpl.
  - by rewrite app_nil_r.
  - rewrite cons_middle, (assoc_L (++) p [x] rest). apply IH.
    by apply first_minimum_step.
Qed.

Lemma find_leader_first_minimum first rest w :
  first_minimum (first :: rest) w (find_leader (first :: rest) first w).
Proof.
  unfold find_leader. simpl. rewrite Z.ltb_irrefl.
  apply (first_minimum_scan rest [first]).
  exists 0%nat. split; [done|]. split.
  - intros [|j] m Hj; simpl in Hj; [|done]. by injection Hj as <-.
  - intros j m Hj. lia.
Qed.

(** C5.  [sync] on a non-empty list returns a controller whose leader is
    the first member of least duration, durations being resolved in the
    state [sync] is called in; and the [leader] getter gives that member
    after every later sequence of operations, [enable] and [disable]
    among them. *)
Theorem sync_leader_first_minimum ms w :
  ms <> [] ->
  exists c w' ldr,
    sync ms w = Returned c w' /\
    first_minimum ms w ldr /\
    forall l, leader c (exec l w') = Some ldr.
Proof.
  intros Hne. destruct ms as [|first rest]; [done|].
  eexists _, _, _. split; [reflexivity|]. split.
  - apply find_leader_first_minimum.
  - intros l. apply leader_exec. unfold leader. simpl.
    by rewrite list_lookup_middle.
Qed.

Lemma sync_leader_first_minimum_witness :
  exists c w' ldr,
    sync [0; 1; 2]%nat
      (exec [NewInterval (Fixed 200) false false;
             NewInterval (Fixed 100) false false;
             NewInterval (Fixed 100) false false] init_world)
    = Returned c w' /\
    first_minimum [0; 1; 2]%nat
      (exec [NewInterval (Fixed 200) false false;
             NewInterval (Fixed 100) false false;
             NewInterval (Fixed 100) false false] init_world) ldr /\
    forall l, leader c (exec l w') = Some ldr.
Proof.
  apply (sync_leader_first_minimum [0; 1; 2]%nat). discriminate.
Defined.

(** ** sync: the saved handlers *)

Lemma map_get_set_eq {V} k (v : V) m : map_get k (map_set k v m) = Some v.
Proof.
  induction m as [|[k' v'] m IH]; simpl.
  - by rewrite decide_True.
  - destruct (decide (k' = k)) as [->|Hne]; simpl.
    + by rewrite decide_True.
    + by rewrite decide_False.
Qed.

Lemma map_get_set_ne {V} k k' (v : V) m :
  k <> k' -> map_get k' (map_set k v m) = map_get k' m.
Proof.
  intros Hne. induction m as [|[k'' v''] m IH]; simpl.
  - by rewrite decide_False.
  - destruct (decide (k'' = k)) as [->|Hne']; simpl.
    + by rewrite !decide_False.
    + destruct (decide (k'' = k')); [done | apply IH].
Qed.

(** The map holds, for each member, the handler the member has when [sync]
    is called. *)
Lemma capture_run_funcs_get ms w m :
  m ∈ ms ->
  map_get m (capture_run_funcs ms w) = Some (field run_func FollowerRun m w).
Proof.
  unfold capture_run_funcs.
  induction ms as [|x ms IH] using rev_ind; [by intros ?%elem_of_nil|].
  rewrite fold_left_app. simpl. intros Hm.
  destruct (decide (x = m)) as [->|Hne].
  - apply map_get_set_eq.
  - rewrite map_get_set_ne by done. apply IH.
    apply elem_of_app in Hm as [Hm|Hm]; [done|].
    apply list_elem_of_singleton in Hm. congruence.
Qed.

Lemma shape_restore saved w x : shape (restore saved w x) = shape w.
Proof.
  unfold restore, force_restart, set_run_func. rewrite shape_upd.
  destruct (map_get _ _); [apply shape_upd | done].
Qed.

Lemma restore_all saved ms w m h :
  m ∈ ms -> (m < length (objs w))%nat -> map_get m saved = Some h ->
  field run_func FollowerRun m (fold_left (restore saved) ms w) = h.
Proof.
  intros Hm Hlen Hh. revert Hm.
  induction ms as [|x ms IH] using rev_ind; [by intros ?%elem_of_nil|].
  rewrite fold_left_app. simpl. intros Hm.
  set (w' := fold_left (restore saved) ms w) in *.
  assert (Hlen' : (m < length (objs w'))%nat).
  { assert (shape w' = shape w) as [= -> _]
      by (apply shape_fold_left, shape_restore). done. }
  unfold restore at 1, force_restart, set_run_func.
  destruct (decide (x = m)) as [->|Hne].
  - rewrite Hh. rewrite field_upd_same by untouched.
    apply lookup_lt_is_Some_2 in Hlen' as [i Hi].
    by rewrite (field_upd_eq _ _ _ _ _ _ Hi).
  - rewrite field_upd_ne by done.
    destruct (map_get x saved); rewrite ?field_upd_ne by done; apply IH.
    all: apply elem_of_app in Hm as [Hm|Hm]; [done|].
    all: apply list_elem_of_singleton in Hm; congruence.
Qed.

Lemma disable_not_enabled c w : isSynced c w = false -> disable c w = w.
Proof.
  unfold isSynced, disable. destruct (ctrls w !! c) as [k|]; [|done].
  simpl. by intros ->.
Qed.

(** [enable] then [disable]: every member that is an object has the
    handler saved for it, whether or not the controller was enabled
    before. *)
Lemma enable_disable_saved tracked c w k m h :
  ctrls w !! c = Some k ->
  m ∈ c_intervals k -> (m < length (objs w))%nat ->
  map_get m (c_original_run_funcs k) = Some h ->
  field run_func FollowerRun m (disable c (enable tracked c w)) = h.
Proof.
  intros Hk Hm Hlen Hh. unfold enable. rewrite Hk.
  destruct (sync_active k) eqn:Hon.
  - unfold disable. rewrite Hk, Hon. simpl.
    fold (restore (c_original_run_funcs k)). by apply restore_all.
  - set (wa := with_ctrls (alter (with_sync_active true) c (ctrls w)) w).
    set (we := force_restart _ _).
    assert (Hs : shape we = shape wa).
    { unfold we, force_restart, current. rewrite shape_upd, shape_kickoff.
      apply shape_fold_left. intros w' x. unfold set_run_func.
      case_decide; apply shape_upd. }
    assert (Hlen' : length (objs we) = length (objs wa)) by by injection Hs.
    assert (Hc : ctrls we = ctrls wa) by by injection Hs.
    clearbody we. unfold disable. rewrite Hc. unfold wa at 1. simpl.
    rewrite list_lookup_alter_eq, Hk. simpl.
    fold (restore (c_original_run_funcs k)).
    apply restore_all; [done| |done]. simpl. by rewrite Hlen'.
Qed.

(** C9.  [sync] saves, without touching any object, the handler each
    member has at that moment; in every later state, [enable] then
    [disable] leaves every member with exactly the handler saved for it;
    and [disable] on a controller that is not enabled changes nothing. *)
Theorem enable_disable_restores_handlers ms w0 :
  ms <> [] ->
  exists c w1 saved,
    sync ms w0 = Returned c w1 /\ objs w1 = objs w0 /\
    c_original_run_funcs <$> ctrls w1 !! c = Some saved /\
    (forall m, m ∈ ms ->
       map_get m saved = Some (field run_func FollowerRun m w0)) /\
    (forall l tracked m,
       m ∈ ms -> (m < length (objs w0))%nat ->
       field run_func FollowerRun m
         (disable c (enable tracked c (exec l w1)))
       = field run_func FollowerRun m w0) /\
    (forall w, isSynced c w = false -> disable c w = w).
Proof.
  intros Hne. destruct ms as [|first rest]; [done|].
  set (ms := first :: rest).
  destruct (sync_unfold first rest w0) as [sig Hsync].
  eexists _, _, _. split; [exact Hsync|]. split; [done|].
  split; [simpl; by rewrite list_lookup_middle|].
  split; [intros m Hm; by apply capture_run_funcs_get|].
  split; [|apply disable_not_enabled].
  intros l tracked m Hm Hlen.
  set (w1 := with_ctrls _ (with_durations sig w0)) in *.
  destruct (grows_exec l w1) as [Hlen1 Hg].
  specialize (Hg (length (ctrls w0))).
  unfold w1 in Hg at 1 3. simpl in Hg. rewrite list_lookup_middle in Hg by done.
  specialize (Hg (ex_intro _ _ eq_refl)). simpl in Hg.
  destruct (ctrls (exec l w1) !! length (ctrls w0)) as [k|] eqn:Hk; [|done].
  simpl in *. injection Hg as Hi Hl Hs.
  apply (enable_disable_saved tracked _ _ k); try done.
  - by rewrite Hi.
  - lia.
  - rewrite Hs. by apply capture_run_funcs_get.
Qed.

Lemma enable_disable_restores_handlers_witness :
  exists c w1 saved,
    sync [0; 1]%nat
      (exec [NewInterval (Fixed 300) false false;
             NewLimitedInterval (Fixed 100) 3 false false] init_world)
    = Returned c w1 /\
    c_original_run_funcs <$> ctrls w1 !! c = Some saved /\
    map_get 1%nat saved = Some (LimitedRun 1) /\
    field run_func FollowerRun 1
      (disable c (enable false c (exec [Current 0 false; Fire 1] w1)))
    = LimitedRun 1.
Proof.
  destruct (enable_disable_restores_handlers [0; 1]%nat
              (exec [NewInterval (Fixed 300) false false;
                     NewLimitedInterval (Fixed 100) 3 false false] init_world))
    as (c & w1 & saved & Hs & _ & Hc & Hget & Hrt & _); [discriminate|].
  exists c, w1, saved. split; [exact Hs|]. split; [exact Hc|]. split.
  - apply (Hget 1%nat). apply list_elem_of_In. simpl. auto.
  - injection Hs as <- <-.
    apply (Hrt [Current 0 false; Fire 1] false 1%nat).
    + apply list_elem_of_In. simpl. auto.
    + simpl. lia.
Defined.

(** ** LimitedInterval: completed and active *)

(** C2, as stated, fails: after the limit is reached, [resume] makes the
    timer active again and leaves [isCompleted] set. *)
Lemma completed_then_resumed_is_active :
  isCompleted 0
    (exec [NewLimitedInterval (Fixed 100) 1 false false;
           Current 0 false; Fire 1; Resume 0 false] init_world) = true /\
  isActive 0
    (exec [NewLimitedInterval (Fixed 100) 1 false false;
           Current 0 false; Fire 1; Resume 0 false] init_world) = true.
Proof. vm_compute. by split. Qed.

Lemma completed_inactive_spec w :
  completed_inactive w <->
  forall o, isCompleted o w = true -> isActive o w = false.
Proof.
  unfold completed_inactive, isCompleted, isActive, lfield, field.
  rewrite Forall_lookup. split.
  - intros H o. destruct (objs w !! o) as [i|] eqn:Hi; [|done]. by apply (H o).
  - intros H o i Hi. specialize (H o). rewrite Hi in H. exact H.
Qed.

Section completed_inactive.
Implicit Types (w : world) (o : ref).

Lemma ci_objs w w' : objs w' = objs w -> completed_inactive w -> completed_inactive w'.
Proof. unfold completed_inactive. by intros ->. Qed.

Lemma ci_upd o f w :
  (forall i, consistent i -> consistent (f i)) ->
  completed_inactive w -> completed_inactive (upd o f w).
Proof. intros Hf H. apply Forall_alter; auto. Qed.

(** An update that need only be right for the object it lands on. *)
Lemma ci_upd_at o f w :
  (forall i, objs w !! o = Some i -> consistent i -> consistent (f i)) ->
  completed_inactive w -> completed_inactive (upd o f w).
Proof. intros Hf H. by apply Forall_alter. Qed.

Lemma ci_fold_left {X} (f : world -> X -> world) (l : list X) w :
  (forall w x, completed_inactive w -> completed_inactive (f w x)) ->
  completed_inactive w -> completed_inactive (fold_left f l w).
Proof.
  intros H. revert w. induction l as [|x l IH]; intros w Hw; simpl; auto.
Qed.

Lemma ci_interval_derived o w :
  completed_inactive w -> completed_inactive (interval_derived o w).
Proof.
  intros H.
  assert (Hr : completed_inactive (read_duration o w)).
  { destruct (read_duration_signals o w) as [m ->]. exact H. }
  unfold interval_derived. destruct (objs w !! o); [|done].
  case_decide; [done|]. simpl. apply ci_upd; [done|]. exact Hr.
Qed.

Lemma ci_kickoff tracked o w :
  completed_inactive w -> completed_inactive (kickoff_subscriptions tracked o w).
Proof.
  intros H. unfold kickoff_subscriptions, subscribe.
  destruct tracked; [apply ci_upd; [done|]|]; by apply ci_interval_derived.
Qed.

Lemma consistent_count_tick i : consistent i -> consistent (count_tick i).
Proof. unfold consistent, count_tick. simpl. by destruct (update i). Qed.

Lemma ci_base_run o w : completed_inactive w -> completed_inactive (base_run o w).
Proof.
  rewrite base_run_upd. apply ci_upd. intros i Hi. unfold base_tick.
  destruct (negb (is_active i)); [done | by apply consistent_count_tick].
Qed.

Lemma ci_limited_run o w :
  completed_inactive w -> completed_inactive (limited_run o w).
Proof.
  rewrite limited_run_upd. apply ci_upd. intros i Hi. unfold limited_tick.
  destruct (from_option is_completed false (limited i)); [done|].
  destruct (negb (is_active i)); [done|]. simpl.
  destruct (_ <=? _); [done | by apply consistent_count_tick].
Qed.

Lemma ci_run h w : completed_inactive w -> completed_inactive (run h w).
Proof. apply run_preserves; [apply ci_base_run | apply ci_limited_run]. Qed.

(** [resume] on an object that is not completed. *)
Lemma ci_resume immediate o w :
  isCompleted o w = false ->
  completed_inactive w -> completed_inactive (resume immediate o w).
Proof.
  intros Hc H. unfold resume.
  assert (completed_inactive (upd o (with_is_active true) w)) as H'.
  { apply ci_upd_at; [|done]. intros i Hi _.
    unfold isCompleted, lfield in Hc. rewrite (field_lookup _ _ _ _ _ Hi) in Hc.
    unfold consistent. simpl. by rewrite Hc. }
  destruct immediate; [|done].
  apply ci_run. unfold force_restart. by apply ci_upd.
Qed.

Lemma lfield_is_completed_cleared o w :
  lfield (fun _ => false) false o w = false.
Proof.
  unfold lfield, field. destruct (objs w !! o) as [i|]; [|done].
  simpl. by destruct (limited i).
Qed.

Lemma ci_reset tracked o w :
  completed_inactive w -> completed_inactive (reset tracked o w).
Proof.
  intros H. unfold reset. rewrite (surjective_pairing (tickCount _ _ _)).
  unfold tickCount. simpl.
  set (w3 := lupd o _ (kickoff_subscriptions tracked o _)).
  assert (H3 : completed_inactive w3).
  { apply ci_upd;
      [intros i; unfold consistent; simpl; by destruct (limited i)|].
    apply ci_kickoff. apply ci_upd; [|done].
    intros i _. unfold consistent. simpl. by destruct (limited i). }
  destruct (negb (isActive o w3)); [|done].
  apply (ci_resume false); [|done].
  unfold w3, isCompleted. rewrite lfield_lupd_eq. simpl.
  rewrite lfield_kickoff, lfield_lupd_eq. apply lfield_is_completed_cleared.
Qed.

Lemma ci_new_Interval tracked d immediate w :
  completed_inactive w ->
  completed_inactive (new_Interval tracked d immediate w).2.
Proof.
  intros H. unfold new_Interval. simpl.
  assert (completed_inactive
            (with_objs (objs w ++ [mkInterval d true 0 0 0
                                     (BaseRun (length (objs w))) false 0
                                     None None]) w)) as H'.
  { apply Forall_app. split; [done|]. by repeat constructor. }
  destruct immediate; [by apply ci_kickoff | done].
Qed.

Lemma ci_enable tracked c w :
  completed_inactive w -> completed_inactive (enable tracked c w).
Proof.
  intros H. unfold enable. destruct (ctrls w !! c) as [k|]; [|done].
  destruct (sync_active k); [done|].
  unfold force_restart, current. apply ci_upd; [done|]. apply ci_kickoff.
  apply ci_fold_left; [|done].
  intros w' x Hw'. unfold set_run_func. case_decide; by apply ci_upd.
Qed.

Lemma ci_disable c w :
  completed_inactive w -> completed_inactive (disable c w).
Proof.
  intros H. unfold disable. destruct (ctrls w !! c) as [k|]; [|done].
  destruct (negb (sync_active k)); [done|].
  apply ci_fold_left; [|done].
  intros w' x Hw'. unfold force_restart, set_run_func. apply ci_upd; [done|].
  destruct (map_get _ _); [by apply ci_upd | done].
Qed.
End completed_inactive.

Lemma ci_step a w :
  guard a w -> completed_inactive w -> completed_inactive (step a w).
Proof.
  intros Hg H. destruct a; simpl in *.
  - by apply ci_new_Interval.
  - unfold new_LimitedInterval.
    pose proof (ci_new_Interval tracked d immediate w H) as H'.
    destruct (new_Interval tracked d immediate w) as [self w'].
    destruct (_ <=? 0); simpl; [done|]. by do 2 (apply ci_upd; [done|]).
  - by apply ci_kickoff.
  - by apply ci_kickoff.
  - unfold set_duration, force_restart. by do 2 (apply ci_upd; [done|]).
  - by apply ci_upd.
  - by apply ci_resume.
  - unfold stop. by do 2 (apply ci_upd; [done|]).
  - done.
  - unfold teardown. by destruct (field update _ _ _).
  - unfold remainingTicks, tickCount. simpl. by apply ci_kickoff.
  - by apply ci_reset.
  - unfold set_maxTicks, lupd. destruct (_ <=? 0); simpl; [done|].
    apply ci_upd; [intros i _; unfold consistent; simpl; by destruct (limited i)|].
    apply ci_upd;
      [intros i; unfold consistent; simpl; by destruct (limited i)|]. done.
  - destruct intervals as [|first rest]; [done|].
    by destruct (sync_unfold first rest w) as [m ->].
  - by apply ci_enable.
  - by apply ci_disable.
  - unfold fire. destruct (List.find _ _); [by apply ci_run | done].
  - done.
  - by destruct (read_duration_signals o w) as [m ->].
Qed.

Lemma ci_exec l w :
  admissible l w -> completed_inactive w -> completed_inactive (exec l w).
Proof.
  revert w. induction l as [|a l IH]; intros w Hl Hw; simpl in *; [done|].
  destruct Hl as [Hg Hl]. apply IH; [done|]. by apply ci_step.
Qed.

(** C2, amended.  Along every sequence of operations in which [resume] is
    never called on a completed timer, a timer that is completed is not
    active. *)
Theorem completed_implies_inactive l o :
  admissible l init_world ->
  isCompleted o (exec l init_world) = true ->
  isActive o (exec l init_world) = false.
Proof.
  intros Hl. apply completed_inactive_spec, ci_exec; [done|]. constructor.
Qed.

Lemma completed_implies_inactive_witness :
  isActive 0
    (exec [NewLimitedInterval (Fixed 100) 1 false false; Current 0 false;
           Pause 0; Resume 0 true; Reset 0 false; SetMaxTicks 0 2;
           Fire 2; Fire 2; Fire 2] init_world) = false.
Proof.
  apply (completed_implies_inactive
           [NewLimitedInterval (Fixed 100) 1 false false; Current 0 false;
            Pause 0; Resume 0 true; Reset 0 false; SetMaxTicks 0 2;
            Fire 2; Fire 2; Fire 2] 0%nat).
  - simpl. repeat split.
  - reflexivity.
Defined.

(** ** sync: what enable installs *)

Lemma shape_override k w x : shape (override k w x) = shape w.
Proof. unfold override, set_run_func. case_decide; apply shape_upd. Qed.

Lemma override_all k ms w m :
  m ∈ ms -> (m < length (objs w))%nat ->
  field run_func FollowerRun m (fold_left (override k) ms w)
  = if decide (m = c_leader k)
    then LeaderRun (c_leader k) (c_intervals k) (c_original_run_funcs k)
    else FollowerRun.
Proof.
  intros Hm Hlen. revert Hm.
  induction ms as [|x ms IH] using rev_ind; [by intros ?%elem_of_nil|].
  rewrite fold_left_app. simpl. intros Hm.
  set (w' := fold_left (override k) ms w) in *.
  assert (Hlen' : (m < length (objs w'))%nat).
  { assert (shape w' = shape w) as [= -> _]
      by (apply shape_fold_left, shape_override). done. }
  unfold override at 1, set_run_func.
  destruct (decide (x = m)) as [->|Hne].
  - apply lookup_lt_is_Some_2 in Hlen' as [i Hi].
    case_decide; by rewrite (field_upd_eq _ _ _ _ _ _ Hi).
  - assert (m ∈ ms).
    { apply elem_of_app in Hm as [Hm|Hm]; [done|].
      apply list_elem_of_singleton in Hm. congruence. }
    destruct (decide (x = c_leader k)); rewrite field_upd_ne by done; by apply IH.
Qed.

(** After [enable], the leader's [#run_func] is the broadcasting closure
    and every other member's is the no-op. *)
Lemma enable_run_funcs tracked c w k m :
  ctrls w !! c = Some k -> sync_active k = false ->
  m ∈ c_intervals k -> (m < length (objs w))%nat ->
  field run_func FollowerRun m (enable tracked c w)
  = if decide (m = c_leader k)
    then LeaderRun (c_leader k) (c_intervals k) (c_original_run_funcs k)
    else FollowerRun.
Proof.
  intros Hk Hoff Hm Hlen. unfold enable. rewrite Hk, Hoff.
  unfold force_restart, current. frame.
  fold (override k). by apply override_all.
Qed.

(** A timer that holds the no-op changes nothing when it fires, and the
    broadcasting closure does nothing while the leader is paused. *)
Lemma run_leader_paused ldr ivs saved w :
  isActive ldr w = false -> run (LeaderRun ldr ivs saved) w = w.
Proof. intros H. by rewrite run_leader, H. Qed.

Lemma run_leader_active ldr ivs saved w :
  isActive ldr w = true ->
  run (LeaderRun ldr ivs saved) w = fold_left (call_saved saved) ivs w.
Proof. intros H. by rewrite run_leader, H. Qed.

(** * Further properties of the code *)

(** ** More on the store *)

(** An update that leaves [g] alone on the object read. *)
Lemma field_upd_at {A} (g : Interval -> A) d o o' f w :
  (forall i, objs w !! o = Some i -> o' = o -> g (f i) = g i) ->
  field g d o (upd o' f w) = field g d o w.
Proof.
  intros H. destruct (decide (o' = o)) as [->|Hne]; [|by apply field_upd_ne].
  unfold field. rewrite objs_upd, list_lookup_alter_eq.
  destruct (objs w !! o) as [i|] eqn:Hi; simpl; [by apply H | done].
Qed.

(** A new object whose field has the default value. *)
Lemma field_alloc {A} (g : Interval -> A) d o x w :
  g x = d -> field g d o (with_objs (objs w ++ [x]) w) = field g d o w.
Proof.
  intros Hx. unfold field. simpl.
  destruct (lt_eq_lt_dec o (length (objs w))) as [[Hlt| ->]|Hgt].
  - by rewrite lookup_app_l.
  - rewrite list_lookup_middle by done.
    by rewrite (lookup_ge_None_2 (objs w)) by done.
  - rewrite !lookup_ge_None_2; [done|lia|]. rewrite length_app. simpl. lia.
Qed.

Lemma field_fold_left {A X} (g : Interval -> A) d o (f : world -> X -> world) l w :
  (forall w x, field g d o (f w x) = field g d o w) ->
  field g d o (fold_left f l w) = field g d o w.
Proof.
  intros H. revert w. induction l as [|x l IH]; intros w; simpl; [done|].
  by rewrite IH, H.
Qed.

Lemma duration_upd_same o o' f w :
  (forall i, duration_input (f i) = duration_input i) ->
  duration o' (upd o f w) = duration o' w.
Proof. intros H. unfold duration. simpl. by rewrite field_upd_same. Qed.

(** ** pause and resume *)

(** X1.  [pause] followed by [resume()] on an active timer gives back the
    very state it started from: tick count, handle and timers included. *)
Theorem pause_resume_round_trip o w i :
  objs w !! o = Some i -> is_active i = true ->
  resume false o (pause o w) = w.
Proof.
  intros Hi Ha. unfold resume, pause. rewrite upd_upd.
  apply upd_same. intros j Hj. assert (j = i) as -> by congruence.
  destruct i. simpl in *. by subst.
Qed.

Lemma pause_resume_round_trip_witness :
  resume false 0
    (pause 0 (exec [NewInterval (Fixed 100) false false; Current 0 false;
                    Fire 1] init_world))
  = exec [NewInterval (Fixed 100) false false; Current 0 false; Fire 1]
      init_world.
Proof.
  apply (pause_resume_round_trip 0
           (exec [NewInterval (Fixed 100) false false; Current 0 false;
                  Fire 1] init_world)
           (mkInterval (Fixed 100) true 1 0 1 (BaseRun 0) false 0
                       (Some (0, 100)) None)); reflexivity.
Defined.

(** X2.  [resume(true)] on a timer that has its own handler counts exactly
    one tick at once, whether or not the timer was paused or ever
    started; it leaves the timer active, bumps the version and does not
    touch the host's timers. *)
Theorem resume_immediate_counts_one_tick o w i :
  objs w !! o = Some i -> run_func i = BaseRun o ->
  tick o (resume true o w) = tick_count i + 1 /\
  isActive o (resume true o w) = true /\
  field version 0 o (resume true o w) = version i + 1 /\
  field notified 0%nat o (resume true o w)
  = (if update i then S (notified i) else notified i) /\
  clock (resume true o w) = clock w.
Proof.
  intros Hi Hr. unfold resume, force_restart. rewrite upd_upd.
  rewrite (field_upd_eq _ _ _ _ _ _ Hi). simpl. rewrite Hr. simpl.
  rewrite base_run_upd, upd_upd. unfold tick, isActive.
  rewrite !(field_upd_eq _ _ _ _ _ _ Hi). simpl.
  unfold base_tick, count_tick. simpl. by destruct (update i).
Qed.

Lemma resume_immediate_counts_one_tick_witness :
  tick 0 (resume true 0
            (exec [NewInterval (Fixed 1000) false false; Pause 0] init_world))
  = 0 + 1.
Proof.
  apply (resume_immediate_counts_one_tick 0
           (exec [NewInterval (Fixed 1000) false false; Pause 0] init_world)
           (mkInterval (Fixed 1000) false 0 0 0 (BaseRun 0) false 0 None None));
    reflexivity.
Defined.

(** ** A paused timer *)

Lemma paused_run o t h w :
  isActive o w = false /\ tick o w = t ->
  isActive o (run h w) = false /\ tick o (run h w) = t.
Proof.
  apply (run_preserves (fun w => isActive o w = false /\ tick o w = t));
    clear w; intros o' w [Ha Ht].
  - rewrite base_run_upd. unfold isActive, tick in *.
    rewrite !(field_upd_at _ _ o o'); [done|..]; intros i Hi ->;
      rewrite (field_lookup _ _ _ _ _ Hi) in Ha;
      unfold base_tick; by rewrite Ha.
  - rewrite limited_run_upd. unfold isActive, tick in *.
    rewrite !(field_upd_at _ _ o o'); [done|..]; intros i Hi ->;
      rewrite (field_lookup _ _ _ _ _ Hi) in Ha;
      unfold limited_tick; rewrite Ha; simpl; by destruct (from_option _ _ _).
Qed.

(** X3.  While a timer is paused no firing counts a tick for it, whichever
    live timer fires and whatever handler that timer holds (its own, a
    leader's broadcast, another object's); and no firing makes it active
    again. *)
Theorem paused_timer_counts_nothing o id w :
  isActive o w = false ->
  tick o (fire id w) = tick o w /\ isActive o (fire id w) = false.
Proof.
  intros Ha. unfold fire. destruct (List.find _ _) as [t|]; [|done].
  by destruct (paused_run o (tick o w) (callback t) w).
Qed.

Lemma paused_timer_counts_nothing_witness :
  tick 0 (fire 1 (exec [NewInterval (Fixed 100) false false; Current 0 false;
                        Fire 1; Pause 0] init_world))
  = tick 0 (exec [NewInterval (Fixed 100) false false; Current 0 false;
                  Fire 1; Pause 0] init_world).
Proof.
  apply (paused_timer_counts_nothing 0 1). reflexivity.
Defined.

(** ** The host's timers *)

Lemma clock_upd o f w : clock (upd o f w) = clock w.
Proof. done. Qed.

Lemma clock_fold_left {X} (f : world -> X -> world) l w :
  (forall w x, clock (f w x) = clock w) -> clock (fold_left f l w) = clock w.
Proof.
  intros H. revert w. induction l as [|x l IH]; intros w; simpl; [done|].
  by rewrite IH, H.
Qed.

Lemma clock_run h w : clock (run h w) = clock w.
Proof.
  apply (run_preserves (fun w' => clock w' = clock w)); [| |done].
  - intros o w' <-. by rewrite base_run_upd.
  - intros o w' <-. by rewrite limited_run_upd.
Qed.

Lemma clock_resume immediate o w : clock (resume immediate o w) = clock w.
Proof.
  unfold resume, force_restart. destruct immediate; [|done].
  by rewrite clock_run.
Qed.

Lemma clock_fire id w : clock (fire id w) = clock w.
Proof. unfold fire. destruct (List.find _ _); [apply clock_run | done]. Qed.

Lemma filter_tid_wf id l n :
  Forall (fun t => 0 < tid t < n) l -> (id <= 0 \/ n <= id) ->
  List.filter (fun t => negb (tid t =? id)) l = l.
Proof.
  intros H Hid. induction H as [|t l Ht _ IH]; simpl; [done|].
  destruct (Z.eqb_spec (tid t) id); simpl; [lia | by rewrite IH].
Qed.

Lemma find_filter_tid id l :
  List.find (fun t => tid t =? id)
            (List.filter (fun t => negb (tid t =? id)) l) = None.
Proof.
  induction l as [|t l IH]; simpl; [done|].
  destruct (tid t =? id) eqn:E; simpl; [done|]. by rewrite E.
Qed.

Lemma find_new_timer l n h d :
  Forall (fun t => 0 < tid t < n) l ->
  List.find (fun t => tid t =? n) (l ++ [mkTimer n h d]) = Some (mkTimer n h d).
Proof.
  intros H. induction H as [|t l Ht _ IH]; simpl.
  - by rewrite Z.eqb_refl.
  - destruct (Z.eqb_spec (tid t) n); [lia | done].
Qed.

(** *** What a read does to the timers *)

Lemma duration_read_duration o o' w : duration o' (read_duration o w) = duration o' w.
Proof. by destruct (read_duration_signals o w) as [m ->]. Qed.

Lemma clock_read_duration o w : clock (read_duration o w) = clock w.
Proof. by destruct (read_duration_signals o w) as [m ->]. Qed.

(** A read of [duration] that finds the value it holds changes nothing. *)
Lemma read_duration_unchanged o w :
  duration_unchanged o w = true -> read_duration o w = w.
Proof.
  unfold duration_unchanged, read_duration. intros H%bool_decide_eq_true.
  destruct (objs w !! o); [|done]. rewrite H. simpl. by rewrite decide_True.
Qed.

(** A read of [duration] does not undo a change. *)
Lemma duration_unchanged_read o w :
  duration_unchanged o (read_duration o w) = duration_unchanged o w.
Proof.
  unfold duration_unchanged. rewrite duration_read_duration.
  unfold read_duration. destruct (objs w !! o); [|done].
  case_decide as H; [done|]. simpl. rewrite map_get_set_eq.
  rewrite !bool_decide_false; [done| |done].
  intros E. apply H. by rewrite E.
Qed.

Lemma up_to_date_spec o w i :
  objs w !! o = Some i ->
  up_to_date o w = true <->
  interval_memo i = Some (version i, duration o w) /\
  map_get o (durations w) = Some (duration o w, false).
Proof.
  intros Hi. unfold up_to_date, duration_unchanged.
  rewrite (field_lookup _ _ _ _ _ Hi), andb_true_iff.
  by rewrite !bool_decide_eq_true.
Qed.

Lemma due_spec o w i : objs w !! o = Some i -> due o w = negb (up_to_date o w).
Proof. intros Hi. unfold due. by rewrite (field_lookup _ _ _ _ _ Hi). Qed.

(** The two ways a read of the derived [#interval] goes. *)
Lemma interval_derived_unfold o w i :
  objs w !! o = Some i ->
  interval_derived o w
  = if up_to_date o w then w
    else
      upd o (fun i => with_interval_memo (Some (version i, duration o w))
                        (with_interval_id (next_id w) i))
        (with_durations
           (map_set o (duration o w, false) (durations (read_duration o w)))
           (with_next_id (next_id w + 1)
              (with_timers
                 (List.filter (fun t => negb (tid t =? interval_id i)) (timers w)
                    ++ [mkTimer (next_id w) (run_func i) (duration o w)])
                 w))).
Proof.
  intros Hi. unfold interval_derived. rewrite Hi. cbv zeta.
  rewrite duration_read_duration.
  destruct (up_to_date o w) eqn:Hup.
  - apply (up_to_date_spec _ _ _ Hi) in Hup as [Hm Hd].
    rewrite read_duration_unchanged
      by (unfold duration_unchanged; by apply bool_decide_eq_true).
    by rewrite decide_True.
  - rewrite decide_False.
    + by destruct (read_duration_signals o w) as [m ->].
    + intros [Hm Hd].
      assert (duration_unchanged o (read_duration o w) = true) as Hu.
      { unfold duration_unchanged. rewrite duration_read_duration.
        by apply bool_decide_eq_true. }
      rewrite duration_unchanged_read in Hu.
      unfold up_to_date in Hup. rewrite (field_lookup _ _ _ _ _ Hi), Hu in Hup.
      by rewrite bool_decide_true in Hup.
Qed.

Lemma interval_derived_not_due o w : due o w = false -> interval_derived o w = w.
Proof.
  destruct (objs w !! o) as [i|] eqn:Hi.
  - rewrite (due_spec _ _ _ Hi), (interval_derived_unfold _ _ _ Hi).
    by destruct (up_to_date o w).
  - intros _. unfold interval_derived. by rewrite Hi.
Qed.

(** A read of [current] or [tickCount] on a timer that is due clears the
    old handle and creates one timer, bound to the handler and the
    duration of that moment. *)
Lemma clock_kickoff tracked o w :
  clock (kickoff_subscriptions tracked o w)
  = if due o w
    then (List.filter (fun t => negb (tid t =? field interval_id 0 o w)) (timers w)
            ++ [mkTimer (next_id w) (field run_func FollowerRun o w) (duration o w)],
          next_id w + 1)
    else clock w.
Proof.
  unfold kickoff_subscriptions, subscribe.
  assert (clock (interval_derived o w) =
          if due o w
          then (List.filter (fun t => negb (tid t =? field interval_id 0 o w))
                            (timers w)
                  ++ [mkTimer (next_id w) (field run_func FollowerRun o w)
                              (duration o w)],
                next_id w + 1)
          else clock w) as <-; [|by destruct tracked].
  destruct (objs w !! o) as [i|] eqn:Hi.
  - rewrite (due_spec _ _ _ Hi), (interval_derived_unfold _ _ _ Hi).
    rewrite !(field_lookup _ _ _ _ _ Hi). by destruct (up_to_date o w).
  - unfold due, field, interval_derived. by rewrite Hi.
Qed.

Lemma interval_id_kickoff tracked o w :
  field interval_id 0 o (kickoff_subscriptions tracked o w)
  = if due o w then next_id w else field interval_id 0 o w.
Proof.
  unfold kickoff_subscriptions, subscribe.
  assert (field interval_id 0 o (interval_derived o w) =
          if due o w then next_id w else field interval_id 0 o w) as <-;
    [|destruct tracked; by frame].
  destruct (objs w !! o) as [i|] eqn:Hi.
  - rewrite (due_spec _ _ _ Hi), (interval_derived_unfold _ _ _ Hi).
    destruct (up_to_date o w); simpl; [done|].
    set (w2 := with_durations _ _).
    assert (Hi2 : objs w2 !! o = Some i) by done.
    by rewrite (field_upd_eq _ _ _ _ _ _ Hi2).
  - rewrite interval_derived_not_due; unfold due, field; by rewrite Hi.
Qed.

(** Updates that leave alone what the derived [#interval] reads. *)
Lemma up_to_date_upd o o' f w :
  (forall i, duration_input (f i) = duration_input i) ->
  (forall i, version (f i) = version i) ->
  (forall i, interval_memo (f i) = interval_memo i) ->
  up_to_date o' (upd o f w) = up_to_date o' w.
Proof.
  intros H1 H2 H3. unfold up_to_date, duration_unchanged.
  rewrite duration_upd_same by done. f_equal.
  destruct (decide (o = o')) as [<-|Hne]; [|by rewrite field_upd_ne].
  unfold field. rewrite objs_upd, list_lookup_alter_eq.
  destruct (objs w !! o) as [i|]; [|done]. simpl. by rewrite H2, H3.
Qed.

Lemma due_upd o o' f w :
  (forall i, duration_input (f i) = duration_input i) ->
  (forall i, version (f i) = version i) ->
  (forall i, interval_memo (f i) = interval_memo i) ->
  due o' (upd o f w) = due o' w.
Proof.
  intros H1 H2 H3. unfold due. rewrite up_to_date_upd by done.
  f_equal. by apply field_upd_same.
Qed.

(** After a read the derived is up to date: nothing is due. *)
Lemma due_kickoff tracked o w : due o (kickoff_subscriptions tracked o w) = false.
Proof.
  unfold kickoff_subscriptions, subscribe.
  assert (due o (interval_derived o w) = false) as H;
    [|destruct tracked; [by rewrite due_upd|done]].
  destruct (objs w !! o) as [i|] eqn:Hi.
  - rewrite (interval_derived_unfold _ _ _ Hi).
    destruct (up_to_date o w) eqn:Hup;
      [by rewrite (due_spec _ _ _ Hi), Hup|].
    set (w2 := with_durations _ _).
    assert (Hi2 : objs w2 !! o = Some i) by done.
    unfold due, up_to_date, duration_unchanged.
    rewrite duration_upd_same by done.
    rewrite !(field_upd_eq _ _ _ _ _ _ Hi2). simpl.
    rewrite map_get_set_eq.
    change (duration o w2) with (duration o w).
    by rewrite !bool_decide_true.
  - unfold interval_derived. rewrite Hi. unfold due, field. by rewrite Hi.
Qed.

Lemma up_to_date_not_due o w : up_to_date o w = true -> due o w = false.
Proof. unfold due. intros ->. apply andb_false_r. Qed.

Lemma never_started_due o w : never_started o w = true -> due o w = true.
Proof.
  unfold never_started, due, up_to_date, field.
  destruct (objs w !! o) as [i|]; [|done].
  simpl. intros H%bool_decide_eq_true. rewrite H. by rewrite bool_decide_false.
Qed.

(** A timer that is settled and gets a restart forced is due. *)
Lemma settled_restart_due o w f :
  settled o w = true ->
  (forall i, version (f i) = version i + 1) ->
  (forall i, interval_memo (f i) = interval_memo i) ->
  due o (upd o f w) = true.
Proof.
  unfold settled, due, up_to_date, field. intros Hs H1 H2.
  rewrite objs_upd, list_lookup_alter_eq.
  destruct (objs w !! o) as [i|]; [|done]. simpl in *.
  apply bool_decide_eq_true in Hs. rewrite H1, H2.
  destruct (interval_memo i) as [[v d]|]; [|done]. simpl in Hs.
  rewrite bool_decide_false; [done|]. intros [= E _]. injection Hs as Hs. lia.
Qed.

(** A timer evaluated at another [#version] than the present one is due. *)
Lemma stale_due o w i :
  objs w !! o = Some i -> fst <$> interval_memo i <> Some (version i) ->
  due o w = true.
Proof.
  intros Hi Hne. rewrite (due_spec _ _ _ Hi). apply negb_true_iff.
  apply not_true_iff_false. intros [Hm _]%(up_to_date_spec _ _ _ Hi).
  apply Hne. by rewrite Hm.
Qed.

(** So is a timer evaluated at another duration than the present one. *)
Lemma stale_memo_due o w i d :
  objs w !! o = Some i -> interval_memo i = Some (version i, d) ->
  duration o w <> d -> due o w = true.
Proof.
  intros Hi Hm Hne. rewrite (due_spec _ _ _ Hi). apply negb_true_iff.
  apply not_true_iff_false. intros [Hm' _]%(up_to_date_spec _ _ _ Hi).
  congruence.
Qed.



(** X4.  Reading [current] or [tickCount] again, with nothing written in
    between, creates no timer and clears none, and every object keeps its
    handle and tick count. *)
Theorem repeated_read_keeps_the_timer t1 t2 o w :
  clock (current t2 o (current t1 o w)) = clock (current t1 o w) /\
  (forall o', field interval_id 0 o' (current t2 o (current t1 o w))
              = field interval_id 0 o' (current t1 o w)) /\
  (forall o', tick o' (current t2 o (current t1 o w)) = tick o' w) /\
  current false o (current t1 o w) = current t1 o w.
Proof.
  unfold current. split; [|split; [|split]].
  - by rewrite clock_kickoff, due_kickoff.
  - intros o'. unfold kickoff_subscriptions at 1.
    rewrite interval_derived_not_due by apply due_kickoff.
    unfold subscribe. destruct t2; by frame.
  - intros o'. unfold tick. by frame.
  - unfold kickoff_subscriptions at 1. simpl.
    apply interval_derived_not_due, due_kickoff.
Qed.

(** *** The ids the host hands out *)

Lemma wf_clock w w' : clock w' = clock w -> timers_wf w -> timers_wf w'.
Proof. unfold clock, timers_wf. by intros [= -> ->]. Qed.

Lemma wf_clearInterval id w : timers_wf w -> timers_wf (clearInterval id w).
Proof.
  intros [Hn Ht]. split; [done|]. simpl.
  rewrite Forall_forall in *. intros t [Hin _]%filter_In. by apply Ht.
Qed.

Lemma wf_kickoff tracked o w :
  timers_wf w -> timers_wf (kickoff_subscriptions tracked o w).
Proof.
  intros [Hn Ht]. unfold timers_wf.
  pose proof (clock_kickoff tracked o w) as Hc. unfold clock in Hc.
  destruct (due o w); injection Hc as -> ->; [|done].
  split; [lia|]. apply Forall_app. split.
  - rewrite Forall_forall in *. intros t [Hin _]%filter_In.
    specialize (Ht t Hin). lia.
  - repeat constructor; simpl; lia.
Qed.

Lemma wf_step a w : timers_wf w -> timers_wf (step a w).
Proof.
  intros H. destruct a; simpl.
  - unfold new_Interval. simpl. destruct immediate; [by apply wf_kickoff | done].
  - unfold new_LimitedInterval, new_Interval. simpl.
    destruct (_ <=? 0); simpl; destruct immediate;
      try apply (wf_clock (kickoff_subscriptions tracked _ _)); try done;
      by apply wf_kickoff.
  - by apply wf_kickoff.
  - by apply wf_kickoff.
  - done.
  - done.
  - eapply wf_clock; [apply clock_resume | done].
  - unfold stop. by apply (wf_clearInterval (field interval_id 0 o w)).
  - by apply wf_clearInterval.
  - unfold teardown. destruct (field update _ _ _); [by apply wf_clearInterval | done].
  - unfold remainingTicks, tickCount. simpl. by apply wf_kickoff.
  - unfold reset, tickCount. simpl.
    set (w2 := kickoff_subscriptions _ _ _).
    assert (timers_wf w2) by by apply wf_kickoff.
    by destruct (negb _).
  - unfold set_maxTicks. by destruct (_ <=? 0).
  - destruct intervals as [|first rest]; [done|].
    by destruct (sync_unfold first rest w) as [m ->].
  - unfold enable. destruct (ctrls w !! c) as [k|]; [|done].
    destruct (sync_active k); [done|]. unfold force_restart, current.
    eapply wf_clock; [apply clock_upd|].
    apply wf_kickoff. eapply wf_clock; [|exact H].
    rewrite clock_fold_left; [done|].
    intros w' x. unfold set_run_func. by case_decide.
  - unfold disable. destruct (ctrls w !! c) as [k|]; [|done].
    destruct (negb _); [done|]. eapply wf_clock; [|exact H].
    rewrite clock_fold_left; [done|].
    intros w' x. unfold force_restart, set_run_func.
    by destruct (map_get _ _).
  - eapply wf_clock; [apply clock_fire | done].
  - done.
  - eapply wf_clock; [apply clock_read_duration | done].
Qed.

(** In every state a program can reach, the live timers have positive ids
    below the next id to be handed out. *)
Lemma wf_exec l : timers_wf (exec l init_world).
Proof.
  assert (forall w, timers_wf w -> timers_wf (exec l w)) as H.
  { induction l as [|a l IH]; intros w Hw; simpl; [done|].
    by apply IH, wf_step. }
  apply H. split; [done | constructor].
Qed.

(** *** The duration an interval was evaluated from *)

(** In every state a program reaches, a derived [#duration] that counts
    as unchanged holds the value [#interval] was last evaluated from: the
    comparison of durations in [interval_derived] never decides. *)

Lemma agrees_same w w' :
  durations w' = durations w ->
  (forall o, field interval_memo None o w' = field interval_memo None o w) ->
  signal_agrees w -> signal_agrees w'.
Proof. intros Hd Hf H o v d c. rewrite Hd, Hf. apply H. Qed.

Lemma agrees_upd o f w :
  (forall i, interval_memo (f i) = interval_memo i) ->
  signal_agrees w -> signal_agrees (upd o f w).
Proof.
  intros Hf. apply agrees_same; [done|]. intros o'. by apply field_upd_same.
Qed.

Lemma agrees_alloc x w :
  interval_memo x = None ->
  signal_agrees w -> signal_agrees (with_objs (objs w ++ [x]) w).
Proof.
  intros Hx. apply agrees_same; [done|]. intros o. by apply field_alloc.
Qed.

Lemma agrees_read_duration o w :
  signal_agrees w -> signal_agrees (read_duration o w).
Proof.
  intros H o' v d c. rewrite field_read_duration. unfold read_duration.
  destruct (objs w !! o); [|apply H]. case_decide; [apply H|]. simpl.
  destruct (decide (o = o')) as [<-|Hne].
  - by rewrite map_get_set_eq.
  - rewrite map_get_set_ne by done. apply H.
Qed.

Lemma agrees_interval_derived o w :
  signal_agrees w -> signal_agrees (interval_derived o w).
Proof.
  intros H. destruct (objs w !! o) as [i|] eqn:Hi;
    [|by rewrite interval_derived_not_due by (unfold due, field; by rewrite Hi)].
  rewrite (interval_derived_unfold _ _ _ Hi).
  destruct (up_to_date o w); [done|].
  intros o' v d c. set (w2 := with_durations _ _).
  assert (Hi2 : objs w2 !! o = Some i) by done.
  destruct (decide (o = o')) as [<-|Hne].
  - rewrite (field_upd_eq _ _ _ _ _ _ Hi2). simpl. rewrite map_get_set_eq.
    congruence.
  - rewrite field_upd_ne by done. simpl. rewrite map_get_set_ne by done.
    intros H1 H2.
    apply (agrees_read_duration o w H o' v d c); [|done].
    by rewrite field_read_duration.
Qed.

Lemma agrees_kickoff tracked o w :
  signal_agrees w -> signal_agrees (kickoff_subscriptions tracked o w).
Proof.
  intros H. unfold kickoff_subscriptions, subscribe.
  destruct tracked; [apply agrees_upd; [done|]|]; by apply agrees_interval_derived.
Qed.

Lemma agrees_run h w : signal_agrees w -> signal_agrees (run h w).
Proof.
  apply run_preserves; intros o w' H'.
  - rewrite base_run_upd. apply agrees_upd; [|done].
    intros i. unfold base_tick, count_tick. by untouched.
  - rewrite limited_run_upd. apply agrees_upd; [|done].
    intros i. unfold limited_tick, count_tick. by untouched.
Qed.

Lemma fold_left_preserves {X} (P : world -> Prop) (f : world -> X -> world) l w :
  (forall w x, P w -> P (f w x)) -> P w -> P (fold_left f l w).
Proof.
  intros H. revert w. induction l as [|x l IH]; intros w Hw; simpl; auto.
Qed.

Lemma scan_reads_preserves (P : world -> Prop) ms first w :
  (forall o w, P w -> P (read_duration o w)) -> P w -> P (scan_reads ms first w).
Proof.
  intros HP. unfold scan_reads. generalize w at 2 3 as w0. intros w0.
  revert first w.
  induction ms as [|x ms IH]; intros first w Hw; simpl; [done|].
  apply IH. by do 2 apply HP.
Qed.

Lemma agrees_step a w : signal_agrees w -> signal_agrees (step a w).
Proof.
  intros H. destruct a; simpl.
  - unfold new_Interval. simpl.
    destruct immediate; [apply agrees_kickoff|]; by apply agrees_alloc.
  - unfold new_LimitedInterval, new_Interval. simpl.
    destruct (_ <=? 0); simpl; destruct immediate;
      repeat (apply agrees_upd; [done|]);
      try apply agrees_kickoff; by apply agrees_alloc.
  - by apply agrees_kickoff.
  - by apply agrees_kickoff.
  - unfold set_duration, force_restart. by do 2 (apply agrees_upd; [done|]).
  - by apply agrees_upd.
  - unfold resume, force_restart.
    destruct immediate; [apply agrees_run|]; by repeat (apply agrees_upd; [done|]).
  - unfold stop. by do 2 (apply agrees_upd; [done|]).
  - done.
  - unfold teardown. by destruct (field update _ _ _).
  - unfold remainingTicks, tickCount. simpl. by apply agrees_kickoff.
  - unfold reset, tickCount, resume, lupd. simpl.
    destruct (negb _); repeat (apply agrees_upd; [done|]);
      apply agrees_kickoff; by apply agrees_upd.
  - unfold set_maxTicks, lupd. destruct (_ <=? 0); simpl; [done|].
    by do 2 (apply agrees_upd; [done|]).
  - destruct intervals as [|first rest]; [done|]. unfold sync. cbv zeta.
    simpl world_of.
    apply (agrees_same (scan_reads (first :: rest) first w)); [done..|].
    by apply scan_reads_preserves; [apply agrees_read_duration|].
  - unfold enable. destruct (ctrls w !! c) as [k|]; [|done].
    destruct (sync_active k); [done|]. unfold force_restart, current.
    apply agrees_upd; [done|]. apply agrees_kickoff.
    apply fold_left_preserves; [|done].
    intros w' x Hw'. unfold set_run_func. case_decide; by apply agrees_upd.
  - unfold disable. destruct (ctrls w !! c) as [k|]; [|done].
    destruct (negb _); [done|]. apply fold_left_preserves; [|done].
    intros w' x Hw'. unfold force_restart, set_run_func.
    apply agrees_upd; [done|]. destruct (map_get _ _); [by apply agrees_upd|done].
  - unfold fire. destruct (List.find _ _); [by apply agrees_run | done].
  - done.
  - by apply agrees_read_duration.
Qed.

Lemma agrees_exec l : signal_agrees (exec l init_world).
Proof.
  assert (forall w, signal_agrees w -> signal_agrees (exec l w)) as H.
  { induction l as [|a l IH]; intros w Hw; simpl; [done|].
    by apply IH, agrees_step. }
  apply H. by intros o v d c.
Qed.

(** Hence, in a reachable state, a derived [#interval] that was evaluated
    at the present [#version] and finds [#duration] unchanged was
    evaluated from the present duration. *)
Lemma unchanged_duration_is_the_memoised_one l o i :
  objs (exec l init_world) !! o = Some i ->
  fst <$> interval_memo i = Some (version i) ->
  map_get o (durations (read_duration o (exec l init_world)))
  = Some (duration o (exec l init_world), false) ->
  interval_memo i = Some (version i, duration o (exec l init_world)).
Proof.
  intros Hi Hv Hc. destruct (interval_memo i) as [[v d]|] eqn:Hm; [|done].
  injection Hv as ->. do 2 f_equal. symmetry.
  apply (agrees_read_duration o _ (agrees_exec l) o (version i) d); [|done].
  by rewrite field_read_duration, (field_lookup _ _ _ _ _ Hi).
Qed.

(** ** Lazy start *)

(** X5.  Constructing an [Interval] creates no timer; the first read of
    [current] (or [tickCount]) creates exactly one, with the handler of
    the class and the resolved duration, whatever its sign, after which
    [isStopped] is false; the [immediate] option is that first read done
    by the constructor. *)
Theorem timer_is_created_on_first_read tracked t' d w :
  timers_wf w ->
  let o := length (objs w) in
  let w0 := (new_Interval tracked d false w).2 in
  clock w0 = clock w /\
  duration o w0 = resolve (host_state w) d /\
  isActive o w0 = true /\ tick o w0 = 0 /\
  clock (current t' o w0)
  = (timers w ++ [mkTimer (next_id w) (BaseRun o) (resolve (host_state w) d)],
     next_id w + 1) /\
  isStopped o (current t' o w0) = false /\
  (new_Interval tracked d true w).2 = current tracked o w0.
Proof.
  intros [Hn Ht] o w0.
  assert (Hi : objs w0 !! o
               = Some (mkInterval d true 0 0 0 (BaseRun o) false 0 None None))
    by by apply list_lookup_middle.
  assert (Hdue : due o w0 = true).
  { apply never_started_due. unfold never_started.
    by rewrite (field_lookup _ _ _ _ _ Hi). }
  repeat split.
  - unfold duration. by rewrite (field_lookup _ _ _ _ _ Hi).
  - unfold isActive. by rewrite (field_lookup _ _ _ _ _ Hi).
  - unfold tick. by rewrite (field_lookup _ _ _ _ _ Hi).
  - unfold current. rewrite clock_kickoff, Hdue.
    unfold duration. rewrite !(field_lookup _ _ _ _ _ Hi). simpl.
    by rewrite (filter_tid_wf 0 _ (next_id w)) by (done || lia).
  - unfold isStopped, current. rewrite interval_id_kickoff, Hdue.
    simpl. apply Z.eqb_neq. lia.
Qed.

Lemma timer_is_created_on_first_read_witness :
  clock (current false 0 (new_Interval false (Fixed (-1000)) false init_world).2)
  = ([mkTimer 1 (BaseRun 0) (-1000)], 2).
Proof.
  apply (timer_is_created_on_first_read false false (Fixed (-1000)) init_world).
  split; [done | constructor].
Defined.

(** ** Writing the duration *)

(** X6.  On a timer that is running, with no restart pending, a write of
    [duration] touches no timer by itself; the next read clears the old
    handle and creates one timer at the new duration, bound to the handler
    the object has then; tick count and active flag are as before. *)
Theorem duration_write_recreates_on_next_read value t o w :
  settled o w = true ->
  clock (set_duration value o w) = clock w /\
  clock (current t o (set_duration value o w))
  = (List.filter (fun x => negb (tid x =? field interval_id 0 o w)) (timers w)
       ++ [mkTimer (next_id w) (field run_func FollowerRun o w)
                   (resolve (host_state w) value)],
     next_id w + 1) /\
  tick o (current t o (set_duration value o w)) = tick o w /\
  isActive o (current t o (set_duration value o w)) = isActive o w.
Proof.
  intros Hup. split; [done|].
  assert (Hdue : due o (set_duration value o w) = true).
  { unfold set_duration, force_restart. rewrite upd_upd.
    by apply settled_restart_due. }
  unfold current, tick, isActive. rewrite clock_kickoff, Hdue.
  unfold set_duration, force_restart. frame. rewrite upd_upd.
  repeat split. do 3 f_equal. f_equal.
  unfold duration, settled, field in *. simpl.
  rewrite list_lookup_alter_eq. by destruct (objs w !! o).
Qed.

Lemma duration_write_recreates_on_next_read_witness :
  clock (current false 0
           (set_duration (Fixed 500) 0
              (exec [NewInterval (Fixed 1000) false false; Current 0 false;
                     Fire 1] init_world)))
  = ([mkTimer 2 (BaseRun 0) 500], 3).
Proof.
  apply (duration_write_recreates_on_next_read (Fixed 500) false 0
           (exec [NewInterval (Fixed 1000) false false; Current 0 false;
                  Fire 1] init_world)).
  reflexivity.
Defined.

(** ** stop and dispose *)

Lemma stop_effect o w :
  isStopped o (stop o w) = true /\
  isActive o (stop o w) = false /\
  tick o (stop o w) = tick o w.
Proof.
  unfold stop. repeat split.
  - unfold isStopped, field. rewrite !objs_upd, !list_lookup_alter_eq. simpl.
    by destruct (objs w !! o).
  - unfold isActive, field. rewrite !objs_upd, !list_lookup_alter_eq. simpl.
    by destruct (objs w !! o).
  - unfold tick. by frame.
Qed.

(** X7.  [stop] leaves the timer inactive with [isStopped] true and its
    tick count as it was, and removes its handle from the host: a firing
    of the handle it had does nothing any more. *)
Theorem stop_kills_the_handle o w :
  isStopped o (stop o w) = true /\
  isActive o (stop o w) = false /\
  tick o (stop o w) = tick o w /\
  fire (field interval_id 0 o w) (stop o w) = stop o w.
Proof.
  destruct (stop_effect o w) as (H1 & H2 & H3).
  repeat split; try done.
  unfold fire, stop. simpl. by rewrite find_filter_tid.
Qed.



(** X9.  [stop] before the first read does not keep the timer from
    starting: the first read afterwards creates a live timer and
    [isStopped] turns false, though the timer stays inactive until
    [resume]. *)
Theorem first_read_after_stop_starts_the_timer t o w :
  timers_wf w -> never_started o w = true ->
  clock (current t o (stop o w))
  = (List.filter (fun x => negb (tid x =? field interval_id 0 o w)) (timers w)
       ++ [mkTimer (next_id w) (field run_func FollowerRun o w) (duration o w)],
     next_id w + 1) /\
  isStopped o (current t o (stop o w)) = false /\
  isActive o (current t o (stop o w)) = false.
Proof.
  intros [Hn Ht] Hnever.
  assert (Hdue : due o (stop o w) = true).
  { apply never_started_due. unfold never_started, stop, field in *.
    rewrite upd_upd, objs_upd, list_lookup_alter_eq.
    change (objs (clearInterval _ w)) with (objs w).
    by destruct (objs w !! o). }
  unfold current. rewrite clock_kickoff, Hdue. split; [|split].
  - assert (field interval_id 0 o (stop o w) = 0) as ->.
    { apply Z.eqb_eq. apply (stop_effect o w). }
    assert (duration o (stop o w) = duration o w) as ->.
    { unfold stop. by rewrite !duration_upd_same. }
    assert (field run_func FollowerRun o (stop o w)
            = field run_func FollowerRun o w) as ->.
    { unfold stop. by frame. }
    unfold stop. simpl. f_equal. f_equal.
    apply (filter_tid_wf 0 _ (next_id w)); [|lia].
    rewrite Forall_forall in *. intros x [Hin _]%filter_In. by apply Ht.
  - unfold isStopped. rewrite interval_id_kickoff, Hdue.
    change (next_id (stop o w)) with (next_id w). apply Z.eqb_neq. lia.
  - unfold isActive. frame. apply stop_effect.
Qed.

Lemma first_read_after_stop_starts_the_timer_witness :
  isStopped 0
    (current false 0
       (stop 0 (exec [NewInterval (Fixed 100) false false] init_world)))
  = false.
Proof.
  apply (first_read_after_stop_starts_the_timer false 0
           (exec [NewInterval (Fixed 100) false false] init_world)).
  - apply wf_exec.
  - reflexivity.
Defined.



(** ** The tick count *)

Lemma field_upd_le (g : Interval -> Z) d o o' f w :
  (forall i, g i <= g (f i)) -> field g d o w <= field g d o (upd o' f w).
Proof.
  intros H. destruct (decide (o' = o)) as [->|Hne];
    [|by rewrite field_upd_ne].
  unfold field. rewrite objs_upd, list_lookup_alter_eq.
  destruct (objs w !! o); simpl; [apply H | lia].
Qed.

Lemma count_tick_le i : tick_count i <= tick_count (count_tick i).
Proof. unfold count_tick. simpl. destruct (update i); simpl; lia. Qed.

Lemma tick_run_le o h w : tick o w <= tick o (run h w).
Proof.
  apply (run_preserves (fun w' => tick o w <= tick o w')); [| |lia].
  - intros o' w' H. rewrite base_run_upd. etrans; [exact H|].
    apply field_upd_le. intros i. unfold base_tick.
    destruct (negb _); [lia | apply count_tick_le].
  - intros o' w' H. rewrite limited_run_upd. etrans; [exact H|].
    apply field_upd_le. intros i. unfold limited_tick.
    destruct (from_option is_completed _ _); [lia|].
    destruct (negb _); [lia|]. simpl.
    destruct (_ <=? _); simpl; apply count_tick_le.
Qed.

Lemma tick_step_same a w o :
  runs_handler a = false -> tick o (step a w) = tick o w.
Proof.
  intros Ha. unfold tick. destruct a; simpl in *; try discriminate.
  - unfold new_Interval. simpl. destruct immediate; frame; by apply field_alloc.
  - unfold new_LimitedInterval, new_Interval. simpl.
    destruct (_ <=? 0); simpl; destruct immediate; frame; by apply field_alloc.
  - unfold current. by frame.
  - unfold tickCount. simpl. by frame.
  - unfold set_duration, force_restart. by frame.
  - unfold pause. by frame.
  - destruct immediate; [discriminate|]. unfold resume. by frame.
  - unfold stop. by frame.
  - done.
  - unfold teardown. by destruct (field update _ _ _).
  - unfold remainingTicks, tickCount. simpl. by frame.
  - unfold reset, tickCount, resume, lupd. simpl. destruct (negb _); by frame.
  - unfold set_maxTicks, lupd. destruct (_ <=? 0); simpl; by frame.
  - destruct intervals as [|first rest]; [done|].
    by destruct (sync_unfold first rest w) as [m ->].
  - unfold enable. destruct (ctrls w !! c) as [k|]; [|done].
    destruct (sync_active k); [done|]. unfold force_restart, current. frame.
    rewrite field_fold_left; [done|].
    intros w' x. unfold set_run_func. case_decide; by frame.
  - unfold disable. destruct (ctrls w !! c) as [k|]; [|done].
    destruct (negb _); [done|].
    rewrite field_fold_left; [done|].
    intros w' x. unfold force_restart, set_run_func. frame.
    destruct (map_get _ _); by frame.
  - done.
  - apply field_read_duration.
Qed.

(** X11.  Only the firing of a timer and [resume(true)] change a tick
    count: a sequence made of anything else (construction, reads, [pause],
    [resume()], [stop], dispose, duration and [maxTicks] writes, [reset],
    [sync], [enable], [disable], changes of the host's state) leaves
    every object's tick count as it is. *)
Theorem tick_count_changes_only_in_handlers l w o :
  forallb (fun a => negb (runs_handler a)) l = true ->
  tick o (exec l w) = tick o w.
Proof.
  revert w. induction l as [|a l IH]; intros w Hl; simpl in *; [done|].
  apply andb_true_iff in Hl as [Ha Hl].
  rewrite IH by done. apply tick_step_same. by destruct (runs_handler a).
Qed.

Lemma tick_count_changes_only_in_handlers_witness :
  tick 0 (exec [Pause 0; SetDuration 0 (Fixed 50); TickCount 0 true;
                Resume 0 false; Stop 0]
            (exec [NewInterval (Fixed 100) false false; Current 0 false;
                   Fire 1; Fire 1] init_world))
  = tick 0 (exec [NewInterval (Fixed 100) false false; Current 0 false;
                  Fire 1; Fire 1] init_world).
Proof.
  apply (tick_count_changes_only_in_handlers
           [Pause 0; SetDuration 0 (Fixed 50); TickCount 0 true;
            Resume 0 false; Stop 0]).
  reflexivity.
Defined.

Lemma tick_step_le a w o : tick o w <= tick o (step a w).
Proof.
  destruct (runs_handler a) eqn:Ha;
    [|by rewrite tick_step_same].
  destruct a; simpl in *; try discriminate.
  - destruct immediate; [|discriminate]. unfold resume, force_restart.
    etrans; [|apply tick_run_le]. unfold tick. frame. lia.
  - unfold fire. destruct (List.find _ _); [apply tick_run_le | lia].
Qed.

(** X12.  No sequence of operations ever lowers a tick count. *)
Theorem tick_count_never_decreases l w o : tick o w <= tick o (exec l w).
Proof.
  revert w. induction l as [|a l IH]; intros w; simpl; [lia|].
  etrans; [apply (tick_step_le a)|apply IH].
Qed.

(** ** enable and disable *)

Lemma ctrls_enable tracked c w k :
  ctrls w !! c = Some k -> sync_active k = false ->
  ctrls (enable tracked c w) = alter (with_sync_active true) c (ctrls w).
Proof.
  intros Hk Hoff. unfold enable. rewrite Hk, Hoff.
  set (wa := with_ctrls (alter (with_sync_active true) c (ctrls w)) w).
  assert (shape (force_restart (c_leader k)
                   (current tracked (c_leader k)
                      (fold_left (override k) (c_intervals k) wa)))
          = shape wa) as Hs.
  { unfold force_restart, current. rewrite shape_upd, shape_kickoff.
    apply shape_fold_left, shape_override. }
  by injection Hs.
Qed.

Lemma ctrls_disable c w k :
  ctrls w !! c = Some k -> sync_active k = true ->
  ctrls (disable c w) = alter (with_sync_active false) c (ctrls w).
Proof.
  intros Hk Hon. unfold disable. rewrite Hk, Hon. simpl.
  set (wa := with_ctrls (alter (with_sync_active false) c (ctrls w)) w).
  assert (shape (fold_left (restore (c_original_run_funcs k)) (c_intervals k) wa)
          = shape wa) as Hs by apply shape_fold_left, shape_restore.
  by injection Hs.
Qed.

(** X13.  [enable] on an enabled controller and [disable] on a disabled
    one change nothing, so each is idempotent; after [enable] the
    controller reads as active and after [disable] as inactive. *)
Theorem enable_disable_idempotent t t' c w :
  enable t' c (enable t c w) = enable t c w /\
  disable c (disable c w) = disable c w /\
  (is_Some (ctrls w !! c) ->
   isSynced c (enable t c w) = true /\ isSynced c (disable c w) = false).
Proof.
  destruct (ctrls w !! c) as [k|] eqn:Hk.
  - destruct (sync_active k) eqn:Hs.
    + assert (enable t c w = w) as He by (unfold enable; by rewrite Hk, Hs).
      pose proof (ctrls_disable c w k Hk Hs) as Hd.
      assert (ctrls (disable c w) !! c = Some (with_sync_active false k)) as Hk'
        by by rewrite Hd, list_lookup_alter_eq, Hk.
      repeat split.
      * rewrite He. unfold enable. by rewrite Hk, Hs.
      * unfold disable at 1. by rewrite Hk'.
      * rewrite He. unfold isSynced. by rewrite Hk.
      * unfold isSynced. by rewrite Hk'.
    + assert (disable c w = w) as Hd by (unfold disable; by rewrite Hk, Hs).
      pose proof (ctrls_enable t c w k Hk Hs) as He.
      assert (ctrls (enable t c w) !! c = Some (with_sync_active true k)) as Hk'
        by by rewrite He, list_lookup_alter_eq, Hk.
      repeat split.
      * unfold enable at 1. by rewrite Hk'.
      * rewrite Hd. unfold disable. by rewrite Hk, Hs.
      * unfold isSynced. by rewrite Hk'.
      * rewrite Hd. unfold isSynced. by rewrite Hk.
  - assert (enable t c w = w) as -> by (unfold enable; by rewrite Hk).
    assert (disable c w = w) as -> by (unfold disable; by rewrite Hk).
    split; [|split].
    + unfold enable. by rewrite Hk.
    + unfold disable. by rewrite Hk.
    + by intros [? ?].
Qed.

Lemma enable_disable_idempotent_witness :
  isSynced 0
    (enable false 0
       (exec [NewInterval (Fixed 100) false false; Sync [0]%nat] init_world))
  = true.
Proof.
  destruct (enable_disable_idempotent false false 0
              (exec [NewInterval (Fixed 100) false false; Sync [0]%nat]
                    init_world)) as (_ & _ & H).
  apply H. eexists. reflexivity.
Defined.

(** ** The leader's broadcast *)

Lemma base_run_effect o m w :
  tick o (base_run m w)
  = tick o w + (if decide (m = o) then if isActive o w then 1 else 0 else 0) /\
  isActive o (base_run m w) = isActive o w.
Proof.
  rewrite base_run_upd. unfold tick, isActive.
  destruct (decide (m = o)) as [->|Hne].
  - unfold field. rewrite objs_upd, list_lookup_alter_eq.
    destruct (objs w !! o) as [i|]; simpl; [|done].
    unfold base_tick, count_tick.
    destruct (is_active i) eqn:Ha; simpl; [|split; [lia|done]].
    destruct (update i); simpl; split; (lia || done).
  - rewrite !field_upd_ne by done. split; [lia | done].
Qed.

(** X14.  While the leader is active, one run of its broadcasting handler
    over members that have the plain [Interval] handler counts, for every
    object, one tick per time it is listed if it is active and none if it
    is paused; objects outside the list are not touched.  While the
    leader is paused the handler does nothing at all. *)
Theorem leader_broadcast_ticks_each_member ldr ms saved w o :
  (forall m, m ∈ ms -> map_get m saved = Some (BaseRun m)) ->
  (isActive ldr w = true ->
   tick o (run (LeaderRun ldr ms saved) w)
   = tick o w
     + (if isActive o w
        then Z.of_nat (length (filter (fun m => m = o) ms)) else 0)) /\
  (isActive ldr w = false -> run (LeaderRun ldr ms saved) w = w).
Proof.
  intros Hplain. split; [|apply run_leader_paused].
  intros Hl. rewrite run_leader_active by done. clear Hl.
  revert w. induction ms as [|m ms IH]; intros w; simpl.
  - destruct (isActive o w); lia.
  - unfold call_saved at 2. rewrite Hplain by left. simpl.
    rewrite IH by (intros m' Hm'; apply Hplain; by right).
    destruct (base_run_effect o m w) as [-> ->].
    rewrite filter_cons. destruct (decide (m = o)); simpl;
      destruct (isActive o w); lia.
Qed.

Lemma leader_broadcast_ticks_each_member_witness :
  tick 0 (run (LeaderRun 1 [0; 1]%nat [(0%nat, BaseRun 0); (1%nat, BaseRun 1)])
              (exec [NewInterval (Fixed 300) false false;
                     NewInterval (Fixed 100) false false] init_world))
  = 0 + 1.
Proof.
  destruct (leader_broadcast_ticks_each_member 1 [0; 1]%nat
              [(0%nat, BaseRun 0); (1%nat, BaseRun 1)]
              (exec [NewInterval (Fixed 300) false false;
                     NewInterval (Fixed 100) false false] init_world) 0%nat)
    as [H _].
  - intros m Hm. apply list_elem_of_In in Hm. simpl in Hm.
    destruct Hm as [<-|[<-|[]]]; reflexivity.
  - apply H. reflexivity.
Defined.

(** ** The timers of a synchronised group *)

Lemma field_kickoff_ne {A} (g : Interval -> A) d tracked o o' w :
  o <> o' ->
  field g d o' (kickoff_subscriptions tracked o w) = field g d o' w.
Proof.
  intros Hne. unfold kickoff_subscriptions, subscribe.
  destruct tracked; rewrite ?field_upd_ne by done;
    (destruct (objs w !! o) as [i|] eqn:Hi;
       [|by rewrite interval_derived_not_due
           by (unfold due, field; by rewrite Hi)]);
    rewrite (interval_derived_unfold _ _ _ Hi);
    (destruct (up_to_date o w); [done|]); by rewrite field_upd_ne.
Qed.

Lemma host_state_kickoff tracked o w :
  host_state (kickoff_subscriptions tracked o w) = host_state w.
Proof.
  assert (host_state (interval_derived o w) = host_state w) as H.
  { destruct (objs w !! o) as [i|] eqn:Hi;
      [|by rewrite interval_derived_not_due
          by (unfold due, field; by rewrite Hi)].
    rewrite (interval_derived_unfold _ _ _ Hi). by destruct (up_to_date o w). }
  unfold kickoff_subscriptions, subscribe. by destruct tracked.
Qed.

Lemma host_state_fold_left {X} (f : world -> X -> world) l w :
  (forall w x, host_state (f w x) = host_state w) ->
  host_state (fold_left f l w) = host_state w.
Proof.
  intros H. revert w. induction l as [|x l IH]; intros w; simpl; [done|].
  by rewrite IH, H.
Qed.

Lemma field_override_all {A} (g : Interval -> A) d o k ms w :
  (forall v i, g (with_run_func v i) = g i) ->
  field g d o (fold_left (override k) ms w) = field g d o w.
Proof.
  intros H. apply field_fold_left. intros w' x.
  unfold override, set_run_func. case_decide; by rewrite field_upd_same.
Qed.

Lemma duration_override_all o k ms w :
  duration o (fold_left (override k) ms w) = duration o w.
Proof.
  unfold duration. rewrite field_override_all by done. f_equal.
  apply host_state_fold_left. intros w' x. unfold override, set_run_func.
  by case_decide.
Qed.

(** The world [enable] reads the leader in. *)
Lemma enable_unfold tracked c w k :
  ctrls w !! c = Some k -> sync_active k = false ->
  enable tracked c w
  = force_restart (c_leader k)
      (current tracked (c_leader k)
         (fold_left (override k) (c_intervals k)
            (with_ctrls (alter (with_sync_active true) c (ctrls w)) w))).
Proof. intros Hk Hoff. unfold enable. by rewrite Hk, Hoff. Qed.

(** [enable] writes nothing but the handler on a member that is not the
    leader. *)
Lemma field_enable_follower {A} (g : Interval -> A) d tracked c w k m :
  ctrls w !! c = Some k -> sync_active k = false -> m <> c_leader k ->
  (forall v i, g (with_run_func v i) = g i) ->
  field g d m (enable tracked c w) = field g d m w.
Proof.
  intros Hk Hoff Hne Hg. rewrite (enable_unfold _ _ _ _ Hk Hoff).
  unfold force_restart, current. rewrite field_upd_ne by done.
  rewrite field_kickoff_ne by done. by rewrite field_override_all.
Qed.

Lemma host_state_enable tracked c w :
  host_state (enable tracked c w) = host_state w.
Proof.
  unfold enable. destruct (ctrls w !! c) as [k|]; [|done].
  destruct (sync_active k); [done|]. unfold force_restart, current. simpl.
  rewrite host_state_kickoff. rewrite host_state_fold_left; [done|].
  intros w' x. unfold set_run_func. by case_decide.
Qed.

(** X15.  [enable] on a group whose leader was never started creates the
    leader's timer, at the leader's own duration and bound to the
    broadcasting handler, and creates or clears no other timer. *)
Theorem enable_starts_the_leader tracked c w k :
  ctrls w !! c = Some k -> sync_active k = false ->
  c_leader k ∈ c_intervals k ->
  never_started (c_leader k) w = true ->
  clock (enable tracked c w)
  = (List.filter
       (fun x => negb (tid x =? field interval_id 0 (c_leader k) w)) (timers w)
       ++ [mkTimer (next_id w)
                   (LeaderRun (c_leader k) (c_intervals k)
                              (c_original_run_funcs k))
                   (duration (c_leader k) w)],
     next_id w + 1).
Proof.
  intros Hk Hoff Hin Hnever. rewrite (enable_unfold _ _ _ _ Hk Hoff).
  set (wa := with_ctrls _ w).
  set (wo := fold_left (override k) (c_intervals k) wa).
  unfold force_restart, current. rewrite clock_upd, clock_kickoff.
  assert (Hlen : (c_leader k < length (objs w))%nat).
  { unfold never_started, field in Hnever.
    destruct (objs w !! c_leader k) eqn:E; [|done]. by eapply lookup_lt_Some. }
  assert (Hdur : duration (c_leader k) wo = duration (c_leader k) w)
    by (unfold wo; by rewrite duration_override_all).
  assert (due (c_leader k) wo = true) as ->.
  { apply never_started_due. unfold never_started, wo.
    by rewrite field_override_all. }
  assert (clock wo = clock w) as [= -> ->].
  { unfold wo. rewrite clock_fold_left; [done|].
    intros w' x. unfold override, set_run_func. by case_decide. }
  rewrite Hdur. unfold wo. rewrite field_override_all by done.
  rewrite override_all by done. by rewrite decide_True.
Qed.

Lemma enable_starts_the_leader_witness :
  clock (enable false 0
           (exec [NewInterval (Fixed 300) false false;
                  NewInterval (Fixed 100) false false;
                  Sync [0; 1]%nat] init_world))
  = ([mkTimer 1 (LeaderRun 1 [0; 1]%nat [(0%nat, BaseRun 0); (1%nat, BaseRun 1)])
              100], 2).
Proof.
  apply (enable_starts_the_leader false 0
           (exec [NewInterval (Fixed 300) false false;
                  NewInterval (Fixed 100) false false;
                  Sync [0; 1]%nat] init_world)
           (mkController [0; 1]%nat 1
              [(0%nat, BaseRun 0); (1%nat, BaseRun 1)] false));
    try reflexivity.
  apply list_elem_of_In. simpl. auto.
Defined.

(** X16.  A follower that is first read while its group is enabled gets a
    timer bound to the empty handler: the firing of that timer changes
    nothing. *)
Theorem follower_started_while_enabled_is_silent tracked t' c w k m :
  timers_wf w ->
  ctrls w !! c = Some k -> sync_active k = false ->
  m ∈ c_intervals k -> m <> c_leader k ->
  never_started m w = true ->
  let we := enable tracked c w in
  clock (current t' m we)
  = (List.filter (fun x => negb (tid x =? field interval_id 0 m w)) (timers we)
       ++ [mkTimer (next_id we) FollowerRun (duration m w)],
     next_id we + 1) /\
  fire (next_id we) (current t' m we) = current t' m we.
Proof.
  intros Hwf Hk Hoff Hin Hne Hnever we.
  assert (Hwfe : timers_wf we) by apply (wf_step (Enable c tracked)), Hwf.
  assert (Hlen : (m < length (objs w))%nat).
  { unfold never_started, field in Hnever.
    destruct (objs w !! m) eqn:E; [|done]. by eapply lookup_lt_Some. }
  assert (Hr : field run_func FollowerRun m we = FollowerRun).
  { unfold we. rewrite (enable_run_funcs _ _ _ k) by done.
    by rewrite decide_False. }
  assert (Hd : duration m we = duration m w).
  { unfold duration, we. rewrite host_state_enable.
    by rewrite (field_enable_follower _ _ _ _ _ k). }
  assert (Hdue : due m we = true).
  { apply never_started_due. unfold never_started, we.
    by rewrite (field_enable_follower _ _ _ _ _ k). }
  assert (Hc : clock (current t' m we)
               = (List.filter (fun x => negb (tid x =? field interval_id 0 m w))
                              (timers we)
                    ++ [mkTimer (next_id we) FollowerRun (duration m w)],
                  next_id we + 1)).
  { unfold current. rewrite clock_kickoff, Hdue, Hr, Hd. unfold we.
    by rewrite (field_enable_follower interval_id _ _ _ _ k). }
  split; [done|].
  unfold fire. injection Hc as -> _.
  rewrite (find_new_timer _ (next_id we)); [done|].
  destruct Hwfe as [_ Ht]. rewrite Forall_forall in *.
  intros x [Hx _]%filter_In. by apply Ht.
Qed.

Lemma follower_started_while_enabled_is_silent_witness :
  fire 2
    (current false 0
       (enable false 0
          (exec [NewInterval (Fixed 300) false false;
                 NewInterval (Fixed 100) false false;
                 Sync [0; 1]%nat] init_world)))
  = current false 0
      (enable false 0
         (exec [NewInterval (Fixed 300) false false;
                NewInterval (Fixed 100) false false;
                Sync [0; 1]%nat] init_world)).
Proof.
  apply (follower_started_while_enabled_is_silent false false 0
           (exec [NewInterval (Fixed 300) false false;
                  NewInterval (Fixed 100) false false;
                  Sync [0; 1]%nat] init_world)
           (mkController [0; 1]%nat 1
              [(0%nat, BaseRun 0); (1%nat, BaseRun 1)] false) 0%nat);
    try reflexivity.
  - apply wf_exec.
  - apply list_elem_of_In. simpl. auto.
  - discriminate.
Defined.

(** ** LimitedInterval from its constructor *)

(** The fields of a [LimitedInterval] that was just constructed. *)
Lemma new_LimitedInterval_fields tracked d n immediate w :
  0 < n ->
  let o := length (objs w) in
  exists w',
    new_LimitedInterval tracked d n immediate w = Returned o w' /\
    w' = upd o (with_run_func (LimitedRun o))
           (upd o (with_limited (Some (mkLimited n false 0)))
              (new_Interval tracked d immediate w).2) /\
    is_limited o w' = true /\ isCompleted o w' = false /\
    isActive o w' = true /\ tick o w' = 0 /\
    baseline o w' = 0 /\ maxTicks o w' = n /\
    field run_func FollowerRun o w' = LimitedRun o.
Proof.
  intros Hn o. unfold new_LimitedInterval.
  destruct (new_Interval tracked d immediate w) as [self w1] eqn:Hnew.
  assert (self = o) as -> by (unfold new_Interval in Hnew; by injection Hnew).
  assert (w1 = (new_Interval tracked d immediate w).2) as Hw1 by by rewrite Hnew.
  destruct (Z.leb_spec n 0); [lia|]. eexists. split; [done|].
  split; [by rewrite Hw1|].
  assert (exists i1, objs w1 !! o = Some i1) as [i1 Hi1].
  { apply lookup_lt_is_Some_2.
    assert (shape w1 = shape (with_objs (objs w ++ [mkInterval d true 0 0 0
              (BaseRun o) false 0 None None]) w)) as [= -> _].
    { rewrite Hw1. unfold new_Interval. simpl.
      destruct immediate; [apply shape_kickoff | done]. }
    simpl. rewrite length_app. simpl. unfold o. lia. }
  assert (Ha : is_active i1 = true /\ tick_count i1 = 0).
  { assert (field is_active false o w1 = true /\ field tick_count 0 o w1 = 0)
      as Hf.
    { rewrite Hw1. unfold new_Interval. simpl.
      destruct immediate; frame; unfold field; simpl;
        by rewrite list_lookup_middle. }
    by rewrite !(field_lookup _ _ _ _ _ Hi1) in Hf. }
  destruct Ha as [Ha Ht].
  unfold is_limited, isCompleted, isActive, tick, baseline, maxTicks, lfield.
  rewrite upd_upd, !(field_upd_eq _ _ _ _ _ _ Hi1). simpl. done.
Qed.

(** X17.  A [LimitedInterval] constructed with a positive [maxTicks] is
    not completed and has all its ticks remaining; each of the first
    [maxTicks - 1] runs of its handler is counted and does not complete;
    the [maxTicks]-th run completes it and pauses it with nothing
    remaining; and from then on the handler changes nothing. *)
Theorem LimitedInterval_completes_at_maxTicks tracked d n immediate w :
  0 < n ->
  let o := length (objs w) in
  exists w',
    new_LimitedInterval tracked d n immediate w = Returned o w' /\
    (forall k : nat, Z.of_nat k < n ->
       isCompleted o (Nat.iter k (limited_run o) w') = false /\
       tick o (Nat.iter k (limited_run o) w') = Z.of_nat k /\
       (remainingTicks false o (Nat.iter k (limited_run o) w')).1
       = n - Z.of_nat k) /\
    let wn := Nat.iter (Z.to_nat n) (limited_run o) w' in
    isCompleted o wn = true /\ isActive o wn = false /\ tick o wn = n /\
    (remainingTicks false o wn).1 = 0 /\
    forall j : nat, Nat.iter j (limited_run o) wn = wn.
Proof.
  intros Hn o.
  destruct (new_LimitedInterval_fields tracked d n immediate w Hn)
    as (w' & Hnew & _ & Hl & Hc & Ha & Ht & Hb & Hm & _).
  fold o in Hnew, Hl, Hc, Ha, Ht, Hb, Hm. unfold tick in *.
  exists w'. split; [done|]. split.
  - intros k Hk.
    destruct (limited_run_below k o w' Hl Hc Ha) as (_ & Hck & _ & Htk & Hbk & Hmk);
      [lia|].
    rewrite remainingTicks_value, Hmk, Htk, Hbk, Hck, Hm, Ht, Hb.
    repeat split; lia.
  - cbv zeta.
    replace (Z.to_nat n) with (S (Z.to_nat (n - 1))) by lia.
    rewrite Nat.iter_succ.
    destruct (limited_run_below (Z.to_nat (n - 1)) o w' Hl Hc Ha)
      as (Hl2 & Hc2 & Ha2 & Ht2 & Hb2 & Hm2); [lia|].
    destruct (limited_run_counts o _ Hl2 Hc2 Ha2)
      as (Ht3 & Hb3 & Hm3 & _ & Hc3 & Ha3).
    set (wn := limited_run o (Nat.iter (Z.to_nat (n - 1)) (limited_run o) w'))
      in *.
    assert (Hdone : isCompleted o wn = true).
    { rewrite Hc3. apply Z.leb_le. lia. }
    repeat split.
    + done.
    + by rewrite Ha3, Hdone.
    + lia.
    + rewrite remainingTicks_value. lia.
    + intros j. induction j as [|j IH]; simpl; [done|].
      rewrite IH. unfold limited_run. by rewrite Hdone.
Qed.

Lemma LimitedInterval_completes_at_maxTicks_witness :
  exists w',
    new_LimitedInterval false (Fixed 100) 3 false init_world = Returned 0%nat w' /\
    isCompleted 0 (Nat.iter 3 (limited_run 0) w') = true /\
    tick 0 (Nat.iter 3 (limited_run 0) w') = 3.
Proof.
  destruct (LimitedInterval_completes_at_maxTicks false (Fixed 100) 3 false
              init_world) as (w' & Hnew & _ & Hc & _ & Ht & _); [lia|].
  exists w'. split; [exact Hnew|]. split; [exact Hc | exact Ht].
Defined.

(** X18.  With the [immediate] option the timer is created by the base
    constructor, before the [LimitedInterval] constructor installs its
    handler, so that timer holds the plain handler: its firings count
    ticks without end and never complete the interval, although the
    object's handler field holds the limiting one. *)
Theorem immediate_LimitedInterval_timer_has_the_plain_handler tracked d n w :
  timers_wf w -> 0 < n ->
  let o := length (objs w) in
  exists w',
    new_LimitedInterval tracked d n true w = Returned o w' /\
    clock w'
    = (timers w ++ [mkTimer (next_id w) (BaseRun o) (resolve (host_state w) d)],
       next_id w + 1) /\
    field run_func FollowerRun o w' = LimitedRun o /\
    forall k : nat,
      tick o (Nat.iter k (fire (next_id w)) w') = Z.of_nat k /\
      isCompleted o (Nat.iter k (fire (next_id w)) w') = false /\
      isActive o (Nat.iter k (fire (next_id w)) w') = true.
Proof.
  intros [Hid Hts] Hn o.
  destruct (new_LimitedInterval_fields tracked d n true w Hn)
    as (w' & Hnew & Hw' & _ & Hc & Ha & Ht & _ & _ & Hr).
  fold o in Hnew, Hw', Hc, Ha, Ht, Hr.
  exists w'. split; [done|].
  assert (Hclock : clock w'
    = (timers w ++ [mkTimer (next_id w) (BaseRun o) (resolve (host_state w) d)],
       next_id w + 1)).
  { rewrite Hw'. unfold new_Interval. simpl. rewrite !clock_upd, clock_kickoff.
    set (w0 := with_objs _ w).
    assert (Hi : objs w0 !! o
                 = Some (mkInterval d true 0 0 0 (BaseRun o) false 0 None None))
      by by apply list_lookup_middle.
    rewrite (never_started_due _ w0)
      by (unfold never_started; by rewrite (field_lookup _ _ _ _ _ Hi)).
    unfold duration. rewrite !(field_lookup _ _ _ _ _ Hi). simpl.
    by rewrite (filter_tid_wf 0 _ (next_id w)) by (done || lia). }
  split; [done|]. split; [done|].
  intros k. induction k as [|k IH]; simpl; [done|].
  set (wk := Nat.iter k (fire (next_id w)) w') in *.
  destruct IH as (Htk & Hck & Hak).
  assert (Hclk : clock wk = clock w').
  { unfold wk. clear. induction k as [|k IH]; simpl; [done|].
    by rewrite clock_fire. }
  unfold fire. rewrite Hclock in Hclk. injection Hclk as -> _.
  rewrite find_new_timer by done. simpl.
  destruct (base_run_effect o o wk) as [-> ->].
  rewrite decide_True, Hak, Htk by done. split; [lia|]. split; [|done].
  rewrite <- Hck. rewrite base_run_upd. unfold isCompleted.
  apply lfield_upd_same. intros i. unfold base_tick, count_tick.
  destruct (negb _); [done|]. simpl. by destruct (update i).
Qed.

Lemma immediate_LimitedInterval_timer_has_the_plain_handler_witness :
  exists w',
    new_LimitedInterval false (Fixed 100) 1 true init_world = Returned 0%nat w' /\
    tick 0 (Nat.iter 5 (fire 1) w') = 5 /\
    isCompleted 0 (Nat.iter 5 (fire 1) w') = false.
Proof.
  destruct (immediate_LimitedInterval_timer_has_the_plain_handler false
              (Fixed 100) 1 init_world) as (w' & Hnew & _ & _ & H);
    [split; [done | constructor] | lia |].
  exists w'. split; [exact Hnew|].
  destruct (H 5%nat) as (Ht & Hc & _). split; [exact Ht | exact Hc].
Defined.

(** X19.  A successful write of [maxTicks] does not resume: on a timer
    that is paused, as a completed one is, it clears [isCompleted] and
    leaves the timer paused, so no firing counts until [resume] or
    [reset]. *)
Theorem raising_maxTicks_does_not_resume n o w :
  0 < n -> isActive o w = false ->
  exists w',
    set_maxTicks n o w = Returned tt w' /\
    isCompleted o w' = false /\ isActive o w' = false /\
    forall id, tick o (fire id w') = tick o w.
Proof.
  intros Hn Ha. unfold set_maxTicks. destruct (Z.leb_spec n 0); [lia|].
  eexists. split; [done|].
  set (w' := lupd o _ (lupd o _ w)).
  assert (Ha' : isActive o w' = false).
  { rewrite <- Ha. unfold w', isActive, lupd. by frame. }
  assert (Ht' : tick o w' = tick o w) by (unfold w', tick, lupd; by frame).
  split; [|split; [done|]].
  - unfold w', isCompleted. rewrite lfield_lupd_eq. simpl.
    rewrite lfield_lupd_eq. apply lfield_is_completed_cleared.
  - intros id. unfold fire. destruct (List.find _ _) as [t|]; [|done].
    by destruct (paused_run o (tick o w) (callback t) w').
Qed.

Lemma raising_maxTicks_does_not_resume_witness :
  exists w',
    set_maxTicks 5 0
      (exec [NewLimitedInterval (Fixed 100) 1 false false; Current 0 false;
             Fire 1] init_world) = Returned tt w' /\
    isCompleted 0 w' = false /\ isActive 0 w' = false /\
    forall id, tick 0 (fire id w') = 1.
Proof.
  apply (raising_maxTicks_does_not_resume 5 0
           (exec [NewLimitedInterval (Fixed 100) 1 false false; Current 0 false;
                  Fire 1] init_world)); [lia | reflexivity].
Defined.

(** ** A duration that follows the host's state *)

(** X20.  With a producer as duration, the [duration] getter follows the
    host's state at once.  On a timer that is up to date, after a change
    of the host's state the next read of the timer replaces it exactly
    when the produced value has changed, and the new timer runs at the new
    value.  A value that has changed and come back counts as changed once
    [duration] was read in between: the timer is then replaced although
    its duration is what it was. *)
Theorem producer_duration_follows_the_host f v t o w i :
  objs w !! o = Some i -> duration_input i = Producer f ->
  up_to_date o w = true ->
  duration o (step (HostWrite v) w) = f v /\
  (f v = f (host_state w) ->
   clock (current t o (step (HostWrite v) w)) = clock w) /\
  (f v <> f (host_state w) ->
   clock (current t o (step (HostWrite v) w))
   = (List.filter (fun x => negb (tid x =? interval_id i)) (timers w)
        ++ [mkTimer (next_id w) (run_func i) (f v)],
      next_id w + 1)) /\
  (f v <> f (host_state w) ->
   clock (current t o
            (exec [HostWrite v; ReadDuration o; HostWrite (host_state w)] w))
   = (List.filter (fun x => negb (tid x =? interval_id i)) (timers w)
        ++ [mkTimer (next_id w) (run_func i) (f (host_state w))],
      next_id w + 1)).
Proof.
  intros Hi Hf Hup. simpl.
  assert (Hi' : objs (with_host_state v w) !! o = Some i) by done.
  assert (Hd0 : duration o w = f (host_state w)).
  { unfold duration. by rewrite (field_lookup _ _ _ _ _ Hi), Hf. }
  assert (Hd : duration o (with_host_state v w) = f v).
  { unfold duration. by rewrite (field_lookup _ _ _ _ _ Hi'), Hf. }
  apply (up_to_date_spec _ _ _ Hi) in Hup as [Hm Hc]. rewrite Hd0 in Hm, Hc.
  split; [done|]. unfold current. rewrite !clock_kickoff. split; [|split].
  - intros E. rewrite up_to_date_not_due; [done|].
    apply (up_to_date_spec _ _ _ Hi'). rewrite Hd, E. by split.
  - intros Hne. rewrite (stale_memo_due _ _ _ (f (host_state w)) Hi'), Hd;
      [|done|by rewrite Hd].
    by rewrite !(field_lookup _ _ _ _ _ Hi').
  - intros Hne.
    assert (Hr : read_duration o (with_host_state v w)
                 = with_durations (map_set o (f v, true) (durations w))
                     (with_host_state v w)).
    { unfold read_duration. rewrite Hi'. cbv zeta. rewrite Hd.
      rewrite decide_False; [done|]. simpl. rewrite Hc. simpl. congruence. }
    rewrite Hr. set (w3 := with_host_state _ _).
    assert (Hi3 : objs w3 !! o = Some i) by done.
    assert (Hd3 : duration o w3 = f (host_state w)).
    { unfold duration. by rewrite (field_lookup _ _ _ _ _ Hi3), Hf. }
    assert (due o w3 = true) as ->.
    { rewrite (due_spec _ _ _ Hi3). apply negb_true_iff.
      apply not_true_iff_false. intros [_ Hc3]%(up_to_date_spec _ _ _ Hi3).
      simpl in Hc3. by rewrite map_get_set_eq in Hc3. }
    by rewrite Hd3, !(field_lookup _ _ _ _ _ Hi3).
Qed.

Lemma producer_duration_follows_the_host_witness :
  clock (current false 0
           (step (HostWrite 7)
              (exec [NewInterval (Producer (fun h => 100 * (h + 1))) false false;
                     Current 0 false] init_world)))
  = ([mkTimer 2 (BaseRun 0) 800], 3) /\
  clock (current false 0
           (exec [HostWrite 7; ReadDuration 0; HostWrite 0]
              (exec [NewInterval (Producer (fun h => 100 * (h + 1))) false false;
                     Current 0 false] init_world)))
  = ([mkTimer 2 (BaseRun 0) 100], 3).
Proof.
  destruct (producer_duration_follows_the_host (fun h => 100 * (h + 1)) 7 false 0
              (exec [NewInterval (Producer (fun h => 100 * (h + 1))) false false;
                     Current 0 false] init_world)
              (mkInterval (Producer (fun h => 100 * (h + 1))) true 0 0 1
                          (BaseRun 0) false 0 (Some (0, 100)) None))
    as (_ & _ & H1 & H2); [reflexivity..|].
  split; [apply H1 | apply H2]; discriminate.
Defined.

(** ** After disable *)

Lemma version_restore_le saved ms o w :
  field version 0 o w <= field version 0 o (fold_left (restore saved) ms w).
Proof.
  revert w. induction ms as [|x ms IH]; intros w; simpl; [lia|].
  etrans; [|apply IH]. unfold restore, force_restart, set_run_func.
  etrans; [|apply field_upd_le; intros i; simpl; lia].
  destruct (map_get x saved); [|lia]. by rewrite field_upd_same.
Qed.

Lemma version_restore_lt saved ms o w :
  o ∈ ms -> (o < length (objs w))%nat ->
  field version 0 o w < field version 0 o (fold_left (restore saved) ms w).
Proof.
  revert w. induction ms as [|x ms IH]; intros w Hin Hlen;
    [by apply elem_of_nil in Hin|]. simpl.
  assert (Hlen' : (o < length (objs (restore saved w x)))%nat).
  { pose proof (shape_restore saved w x) as Hs.
    assert (length (objs (restore saved w x)) = length (objs w)) as ->
      by by injection Hs.
    done. }
  destruct (decide (x = o)) as [->|Hne].
  - eapply Z.lt_le_trans; [|apply version_restore_le].
    unfold restore, force_restart, set_run_func.
    apply lookup_lt_is_Some_2 in Hlen as [i Hi].
    destruct (map_get o saved).
    + rewrite upd_upd, (field_upd_eq _ _ _ _ _ _ Hi), (field_lookup _ _ _ _ _ Hi).
      simpl. lia.
    + rewrite (field_upd_eq _ _ _ _ _ _ Hi), (field_lookup _ _ _ _ _ Hi).
      simpl. lia.
  - apply elem_of_cons in Hin as [?|Hin]; [congruence|].
    eapply Z.le_lt_trans; [|by apply IH].
    unfold restore, force_restart, set_run_func.
    rewrite field_upd_ne by done.
    destruct (map_get x saved); [by rewrite field_upd_ne | lia].
Qed.

Lemma field_restore_all {A} (g : Interval -> A) d o saved ms w :
  (forall v i, g (with_run_func v i) = g i) ->
  (forall v i, g (with_version v i) = g i) ->
  field g d o (fold_left (restore saved) ms w) = field g d o w.
Proof.
  intros H1 H2. apply field_fold_left. intros w' x.
  unfold restore, force_restart, set_run_func.
  rewrite field_upd_same by (intros; apply H2).
  destruct (map_get x saved); [by rewrite field_upd_same | done].
Qed.

(** X21.  [disable] creates and clears no timer, so the timers that are
    live keep the handlers they were created with; for a member whose
    timer was running, with no restart pending, the next read replaces
    that timer by one bound to the handler saved for the member, at the
    member's own duration. *)
Theorem disable_then_read_restores_the_timer t c w k m h :
  ctrls w !! c = Some k -> sync_active k = true ->
  m ∈ c_intervals k -> settled m w = true ->
  map_get m (c_original_run_funcs k) = Some h ->
  clock (disable c w) = clock w /\
  clock (current t m (disable c w))
  = (List.filter (fun x => negb (tid x =? field interval_id 0 m w)) (timers w)
       ++ [mkTimer (next_id w) h (duration m w)],
     next_id w + 1).
Proof.
  intros Hk Hon Hin Hup Hh.
  assert (Hlen : (m < length (objs w))%nat).
  { unfold settled, field in Hup.
    destruct (objs w !! m) eqn:E; [|done]. by eapply lookup_lt_Some. }
  assert (Hd : disable c w
               = fold_left (restore (c_original_run_funcs k)) (c_intervals k)
                   (with_ctrls (alter (with_sync_active false) c (ctrls w)) w))
    by (unfold disable; by rewrite Hk, Hon).
  set (wa := with_ctrls _ w) in Hd.
  assert (Hclock : clock (disable c w) = clock w).
  { rewrite Hd, clock_fold_left; [done|]. intros w' x.
    unfold restore, force_restart, set_run_func. by destruct (map_get x _). }
  split; [done|].
  assert (Hdur : duration m (disable c w) = duration m w).
  { rewrite Hd. unfold duration. rewrite field_restore_all by done. f_equal.
    rewrite host_state_fold_left; [done|]. intros w' x.
    unfold restore, force_restart, set_run_func. by destruct (map_get x _). }
  assert (Hdue : due m (disable c w) = true).
  { pose proof (version_restore_lt (c_original_run_funcs k) (c_intervals k)
                  m wa Hin Hlen) as Hv.
    assert (Hmemo : field interval_memo None m (disable c w)
                    = field interval_memo None m w)
      by (rewrite Hd; by rewrite field_restore_all).
    assert (is_Some (objs (disable c w) !! m)) as [i' Hi'].
    { apply lookup_lt_is_Some_2.
      assert (shape (disable c w) = shape wa) as Hs
        by (rewrite Hd; apply shape_fold_left, shape_restore).
      assert (length (objs (disable c w)) = length (objs wa)) as ->
        by by injection Hs.
      done. }
    rewrite <- Hd in Hv. apply (stale_due _ _ _ Hi').
    unfold settled, field in *. change (objs wa) with (objs w) in Hv.
    destruct (objs w !! m) as [i|]; [|done].
    rewrite Hi' in *. simpl in *.
    apply bool_decide_eq_true in Hup. rewrite Hmemo, Hup.
    intros [= ?]. lia. }
  unfold current. rewrite clock_kickoff, Hdue, Hdur.
  injection Hclock as -> ->.
  assert (field interval_id 0 m (disable c w) = field interval_id 0 m w) as ->
    by (rewrite Hd; by rewrite field_restore_all).
  assert (field run_func FollowerRun m (disable c w) = h) as ->
    by (rewrite Hd; by apply restore_all).
  done.
Qed.

Lemma disable_then_read_restores_the_timer_witness :
  clock (current false 0
           (disable 0
              (exec [NewInterval (Fixed 300) false false;
                     NewInterval (Fixed 100) false false;
                     Sync [0; 1]%nat; Enable 0 false; Current 0 false]
                    init_world)))
  = ([mkTimer 1 (LeaderRun 1 [0; 1]%nat [(0%nat, BaseRun 0); (1%nat, BaseRun 1)])
              100;
      mkTimer 3 (BaseRun 0) 300], 4).
Proof.
  apply (disable_then_read_restores_the_timer false 0
           (exec [NewInterval (Fixed 300) false false;
                  NewInterval (Fixed 100) false false;
                  Sync [0; 1]%nat; Enable 0 false; Current 0 false]
                 init_world)
           (mkController [0; 1]%nat 1
              [(0%nat, BaseRun 0); (1%nat, BaseRun 1)] true) 0%nat (BaseRun 0));
    try reflexivity.
  apply list_elem_of_In. simpl. auto.
Defined.

(** ** enable on a leader that is already running *)



(** ** The first revision of Interval *)

Lemma legacy_read_duration_signals o w :
  exists m, Legacy.read_duration o w = Legacy.with_durations m w.
Proof.
  exists (Legacy.durations (Legacy.read_duration o w)). unfold Legacy.read_duration.
  destruct (Legacy.objs w !! o); [case_decide|]; by destruct w.
Qed.




(** The derived [#interval] evaluated again: a timer is added, and none is
    cleared. *)
Lemma legacy_interval_replaced o w i :
  Legacy.objs w !! o = Some i ->
  ~ (fst <$> Legacy.interval_memo i = Some (Legacy.duration o w) /\
     map_get o (Legacy.durations (Legacy.read_duration o w))
     = Some (Legacy.duration o w, false)) ->
  Legacy.interval o w
  = (Legacy.next_id w,
     Legacy.upd o
       (fun i => Legacy.mkInterval (Legacy.duration_input i) (Legacy.update i)
                   (Some (Legacy.duration o w, Legacy.next_id w)))
       (Legacy.mkWorld (Legacy.objs w)
          (Legacy.timers w
             ++ [Legacy.mkTimer (Legacy.next_id w) o (Legacy.duration o w)])
          (Legacy.next_id w + 1) (Legacy.host_state w)
          (map_set o (Legacy.duration o w, false)
             (Legacy.durations (Legacy.read_duration o w))))).
Proof.
  intros Hi Hne. unfold Legacy.interval. rewrite Hi. cbv zeta.
  assert (Legacy.duration o (Legacy.read_duration o w) = Legacy.duration o w)
    as Hd by by destruct (legacy_read_duration_signals o w) as [m ->].
  rewrite Hd, decide_False by done.
  by destruct (legacy_read_duration_signals o w) as [m ->].
Qed.

(** As in the later revision, a derived [#duration] that counts as
    unchanged holds the value [#interval] was evaluated from, whatever is
    done to the object: the comparison of durations in [Legacy.interval]
    never decides. *)
Lemma legacy_agrees_upd o f w :
  (forall i, Legacy.interval_memo (f i) = Legacy.interval_memo i) ->
  legacy_signal_agrees w -> legacy_signal_agrees (Legacy.upd o f w).
Proof.
  intros Hf H o' i d id c. simpl. rewrite list_lookup_alter.
  case_decide; [|apply H]. subst o'.
  destruct (Legacy.objs w !! o) as [j|] eqn:Hj; [|done]. simpl.
  intros [= <-]. rewrite Hf. by apply H.
Qed.

Lemma legacy_agrees_read_duration o w :
  legacy_signal_agrees w -> legacy_signal_agrees (Legacy.read_duration o w).
Proof.
  intros H o' i d id c. unfold Legacy.read_duration.
  destruct (Legacy.objs w !! o); [|apply H]. case_decide; [apply H|]. simpl.
  destruct (decide (o = o')) as [<-|Hne].
  - by rewrite map_get_set_eq.
  - rewrite map_get_set_ne by done. apply H.
Qed.

Lemma legacy_agrees_interval o w :
  legacy_signal_agrees w -> legacy_signal_agrees (Legacy.interval o w).2.
Proof.
  intros H. pose proof (legacy_agrees_read_duration o w H) as Hr.
  unfold Legacy.interval. destruct (Legacy.objs w !! o) as [i|] eqn:Hi; [|done].
  cbv zeta. case_decide; [done|].
  destruct (legacy_read_duration_signals o w) as [m Hm]. rewrite Hm in *.
  intros o' j d id c. simpl. rewrite list_lookup_alter.
  destruct (decide (o' = o)) as [->|Hne].
  - rewrite Hi, map_get_set_eq. simpl. rewrite decide_True by done.
    intros [= <-]. simpl. congruence.
  - rewrite map_get_set_ne by done. rewrite decide_False by done. apply (Hr o').
Qed.

Lemma legacy_agrees_current tracked o w :
  legacy_signal_agrees w -> legacy_signal_agrees (Legacy.current tracked o w).
Proof.
  intros H. unfold Legacy.current, Legacy.subscribe.
  destruct tracked; [apply legacy_agrees_upd; [done|]|];
    by apply legacy_agrees_interval.
Qed.

Lemma legacy_agrees_set_duration value o w :
  legacy_signal_agrees w -> legacy_signal_agrees (Legacy.set_duration value o w).
Proof.
  intros H. unfold Legacy.set_duration, Legacy.clear.
  pose proof (legacy_agrees_interval o w H) as Hi.
  destruct (Legacy.interval o w) as [id w1]. by apply legacy_agrees_upd.
Qed.

Lemma legacy_agrees_new_Interval d w :
  legacy_signal_agrees w -> legacy_signal_agrees (Legacy.new_Interval d w).2.
Proof.
  intros H o i d' id c. simpl. intros Hi.
  apply lookup_app_Some in Hi as [Hi|[_ Hi]]; [by apply H|].
  by apply list_lookup_singleton_Some in Hi as [_ <-].
Qed.

Lemma legacy_timers_subscribe tracked o w :
  Legacy.timers (Legacy.subscribe tracked o w) = Legacy.timers w.
Proof. by destruct tracked. Qed.



(** X24.  In the first revision, when the value of a producer changes
    with the host's state, the next read creates a timer at the new
    duration and leaves the old timer live beside it: the derived
    [#interval] does not clear the handle it replaces. *)
Theorem legacy_producer_change_leaves_the_old_timer f v t o w i id :
  Legacy.objs w !! o = Some i ->
  Legacy.duration_input i = Producer f ->
  Legacy.interval_memo i = Some (f (Legacy.host_state w), id) ->
  f v <> f (Legacy.host_state w) ->
  Legacy.timers (Legacy.current t o (Legacy.with_host_state v w))
  = Legacy.timers w ++ [Legacy.mkTimer (Legacy.next_id w) o (f v)].
Proof.
  intros Hi Hf Hm Hv. unfold Legacy.current. rewrite legacy_timers_subscribe.
  assert (Hi' : Legacy.objs (Legacy.with_host_state v w) !! o = Some i) by done.
  assert (Hd : Legacy.duration o (Legacy.with_host_state v w) = f v).
  { unfold Legacy.duration. rewrite Hi'. simpl. by rewrite Hf. }
  rewrite (legacy_interval_replaced o _ i Hi').
  - simpl. by rewrite Hd.
  - rewrite Hm, Hd. simpl. intros [[= ?] _]. done.
Qed.

Lemma legacy_producer_change_leaves_the_old_timer_witness :
  Legacy.timers
    (Legacy.current false 0
       (Legacy.with_host_state 3
          (Legacy.current false 0
             (Legacy.new_Interval (Producer (fun h => 100 * (h + 1)))
                                  (Legacy.mkWorld [] [] 1 0 [])).2)))
  = [Legacy.mkTimer 1 0 100; Legacy.mkTimer 2 0 400].
Proof.
  apply (legacy_producer_change_leaves_the_old_timer
           (fun h => 100 * (h + 1)) 3 false 0
           (Legacy.current false 0
              (Legacy.new_Interval (Producer (fun h => 100 * (h + 1)))
                                   (Legacy.mkWorld [] [] 1 0 [])).2)
           (Legacy.mkInterval (Producer (fun h => 100 * (h + 1))) false
                              (Some (100, 1))) 1);
    [reflexivity | reflexivity | reflexivity | discriminate].
Defined.

(** ** The bundle-size script *)

Section combinations.
Context {T : Type}.
Implicit Types (arr c : list T).

Lemma singleton_sublist y arr : [y] `sublist_of` arr <-> y ∈ arr.
Proof.
  induction arr as [|x arr IH].
  - rewrite sublist_nil_r. split; [done | by intros ?%elem_of_nil].
  - rewrite sublist_cons_r, elem_of_cons, IH. split.
    + intros [?|(l' & [= -> <-] & _)]; auto.
    + intros [->|?]; [right|by left].
      eexists. split; [done | apply sublist_nil_l].
Qed.

Lemma doubles_spec arr c :
  c ∈ SizeScript.doubles arr <-> c `sublist_of` arr /\ length c = 2%nat.
Proof.
  induction arr as [|x arr IH]; simpl.
  - rewrite sublist_nil_r. split; [by intros ?%elem_of_nil | by intros [-> ?]].
  - rewrite elem_of_app, list_elem_of_fmap, IH, sublist_cons_r. split.
    + intros [(y & -> & Hy)|[Hc Hl]].
      * split; [|done]. right. eexists. split; [done|].
        by apply singleton_sublist.
      * split; [by left | done].
    + intros [[Hc|(c' & -> & Hc')] Hl]; [by right|]. left.
      destruct c' as [|y [|? ?]]; try done.
      exists y. split; [done|]. by apply singleton_sublist.
Qed.

Lemma triples_spec arr c :
  c ∈ SizeScript.triples arr <-> c `sublist_of` arr /\ length c = 3%nat.
Proof.
  induction arr as [|x arr IH]; simpl.
  - rewrite sublist_nil_r. split; [by intros ?%elem_of_nil | by intros [-> ?]].
  - rewrite elem_of_app, list_elem_of_fmap, IH, sublist_cons_r. split.
    + intros [(c' & -> & [Hc' Hl]%doubles_spec)|[Hc Hl]].
      * split; [|simpl; lia]. right. by eexists.
      * split; [by left | done].
    + intros [[Hc|(c' & -> & Hc')] Hl]; [by right|]. left.
      exists c'. split; [done|]. apply doubles_spec. split; [done|].
      simpl in Hl. lia.
Qed.

(** X25.  [getCombinations] returns exactly the selections of one, two or
    three elements of the array that keep the array's order. *)
Theorem getCombinations_are_the_small_sublists arr c :
  c ∈ SizeScript.getCombinations arr <->
  c `sublist_of` arr /\ (1 <= length c <= 3)%nat.
Proof.
  unfold SizeScript.getCombinations.
  rewrite !elem_of_app, list_elem_of_fmap, doubles_spec, triples_spec. split.
  - intros [(y & -> & Hy)|[[Hc Hl]|[Hc Hl]]].
    + split; [by apply singleton_sublist | simpl; lia].
    + split; [done | lia].
    + split; [done | lia].
  - intros [Hc Hl].
    destruct c as [|y [|z [|u [|? ?]]]]; simpl in Hl; try lia.
    + left. exists y. split; [done|]. by apply singleton_sublist.
    + right. by left.
    + right. by right.
Qed.

Lemma length_doubles arr :
  (2 * length (SizeScript.doubles arr) + length arr
   = length arr * length arr)%nat.
Proof.
  induction arr as [|x arr IH]; simpl; [done|].
  rewrite length_app, length_fmap. lia.
Qed.

Lemma length_triples arr :
  (6 * length (SizeScript.triples arr) + 3 * (length arr * length arr)
   = length arr * length arr * length arr + 2 * length arr)%nat.
Proof.
  induction arr as [|x arr IH]; simpl; [done|].
  rewrite length_app, length_fmap.
  pose proof (length_doubles arr). nia.
Qed.

(** X26.  For an array of [n] elements [getCombinations] returns
    [n + n(n-1)/2 + n(n-1)(n-2)/6] combinations, that is
    [(n^3 + 5n) / 6]. *)
Theorem getCombinations_count arr :
  (6 * length (SizeScript.getCombinations arr)
   = length arr * length arr * length arr + 5 * length arr)%nat.
Proof.
  unfold SizeScript.getCombinations.
  rewrite !length_app, length_fmap.
  pose proof (length_doubles arr). pose proof (length_triples arr). nia.
Qed.

End combinations.

Lemma getCombinations_are_the_small_sublists_witness :
  [1; 3]%nat ∈ SizeScript.getCombinations [1; 2; 3]%nat.
Proof.
  apply (getCombinations_are_the_small_sublists [1; 2; 3]%nat [1; 3]%nat).
  split; [repeat constructor | simpl; lia].
Defined.
